(** * Keystore of the quantos SDK ([kp.go]): a shallow embedding

    The Go file defines three layers:
    - [KeyPairInfo]: one key pair, held either as a raw key or as an
      encrypted key with its salt and MAC;
    - [AccountInfo]: a name and a map from permission labels to pointers to
      [KeyPairInfo] values;
    - [FileAccountStore]: one JSON file per account in a directory, with a
      backup of the previous file on overwrite.

    Everything the file imports from other packages (base58, SHA3, scrypt,
    AES-CTR, the random source, the key-pair generator, JSON) is taken as a
    parameter, gathered in the class [Imports].  Go errors are modelled by
    their message, runtime panics by a separate outcome. *)

From Stdlib.Strings Require Import Byte.
From stdpp Require Import base decidable option list strings gmap fin_maps.

(** ** Bytes, slices and results *)

Abbreviation bytes := (list byte).

#[global] Instance byte_eq_dec : EqDecision byte := Byte.byte_eq_dec.

(** [bytes.Equal]. *)
Definition bytes_Equal (a b : bytes) : bool := bool_decide (a = b).

(** What a call produces: a value, a Go [error] (its message), or a runtime
    panic. *)
Inductive res (A : Type) : Type :=
  | Ret (a : A)
  | Err (msg : string)
  | Crash.
Arguments Ret {A} a.
Arguments Err {A} msg.
Arguments Crash {A}.

#[global] Instance res_ret : MRet res := @Ret.
#[global] Instance res_bind : MBind res := fun A B f m =>
  match m with
  | Ret a => f a
  | Err e => Err e
  | Crash => Crash
  end.

(** What a method with result type [error] returns: [nil], an error, or it
    does not return because of a panic. *)
Inductive outcome : Type :=
  | Nil
  | Error (msg : string)
  | Panic.

#[global] Instance outcome_eq_dec : EqDecision outcome.
Proof. solve_decision. Defined.

(** A Go slice of bytes: the elements below its length, and the rest of the
    backing array up to its capacity.  A slice expression [s[lo:hi]] is
    checked against the capacity, not the length. *)
Record slice : Type := Slice { elems : bytes; spare : bytes }.

Definition cap (s : slice) : nat := length (elems s) + length (spare s).

(** [make([]byte, n)]. *)
Definition make (n : nat) : slice := Slice (replicate n x00) [].

(** [s[lo:hi]]: panics unless [lo <= hi <= cap(s)]. *)
Definition reslice (s : slice) (lo hi : nat) : res bytes :=
  if decide (lo ≤ hi ∧ hi ≤ cap s)
  then Ret (take (hi - lo) (drop lo (elems s ++ spare s)))
  else Crash.

(** ** KeyPairInfo *)

Record KeyPairInfo : Type := mkKeyPairInfo {
  ID : string;
  RawKey : string;
  KeyType : string;
  PubKey : string;
  Salt : string;
  EncryptedKey : string;
  Mac : string;
}.

#[global] Instance KeyPairInfo_eq_dec : EqDecision KeyPairInfo.
Proof. solve_decision. Defined.

(** ** AccountInfo

    [Keypairs] maps a permission label to a pointer.  The records live in a
    heap; a pointer the heap does not hold stands for [nil]. *)

Abbreviation ptr := positive.
Abbreviation heap := (gmap ptr KeyPairInfo).

Record AccountInfo : Type := mkAccountInfo {
  Name : string;
  Keypairs : gmap string ptr;
}.

Definition NewAccountInfo : AccountInfo := {| Name := EmptyString; Keypairs := ∅ |}.

(** ** The imported packages *)

Class Imports : Type := {
  (** [common.EncodeBase58], [common.DecodeBase58], [common.Sha3] *)
  EncodeBase58 : bytes → string;
  DecodeBase58 : string → slice;
  Sha3 : bytes → bytes;
  (** [scrypt.Key(password, salt, N, r, p, keyLen)] *)
  scrypt_Key : bytes → bytes → Z → Z → Z → Z → res slice;
  (** [aes.NewCipher(key)] and the key stream of [cipher.NewCTR(block, iv)]
      applied by [XORKeyStream] *)
  Block : Type;
  aes_NewCipher : bytes → res Block;
  XORKeyStream : Block → bytes → bytes → bytes;
  (** [frand.Read(b)]: the bytes written into a buffer of the given length *)
  Rng : Type;
  frand_Read : Rng → nat → bytes * Rng;
  (** [account2.NewKeyPair(id)] and [pub.MarshalBinary()] *)
  PrivateKey : Type;
  PublicKey : Type;
  NewKeyPair : string → PrivateKey * PublicKey;
  MarshalBinary : PublicKey → res bytes;
  (** [json.MarshalIndent] on an account and the records its pointers
      lead to *)
  json_MarshalIndent : AccountInfo → heap → res bytes;
}.

(** [aes.BlockSize]. *)
Definition aes_BlockSize : nat := 16.

(** ** Methods of KeyPairInfo *)

Definition KeyPairInfo_IsEncrypted (k : KeyPairInfo) : bool :=
  negb (bool_decide (EncryptedKey k = EmptyString)) || bool_decide (RawKey k = EmptyString).

(** [Encrypt] and [Decrypt] assign to the fields of their receiver only in
    their last statements, after the last [return] of an error and after the
    last slice expression: they return [nil] with the record updated, or an
    error or a panic with the record as it was. *)
Definition finish (k : KeyPairInfo) (r : res KeyPairInfo) : outcome * KeyPairInfo :=
  match r with
  | Ret k' => (Nil, k')
  | Err e => (Error e, k)
  | Crash => (Panic, k)
  end.

Section KeyPair.
Context `{Imports}.

(** [cipher.NewCTR(block, iv)] panics unless the IV has the block size;
    the stream is then determined by the block and the IV. *)
Definition cipher_NewCTR (b : Block) (iv : bytes) : res (bytes → bytes) :=
  if decide (length iv = aes_BlockSize) then Ret (XORKeyStream b iv) else Crash.

(** [NewKeyPairInfo]; [id] is the string of the UUID drawn by
    [uuid.NewUUID()]. *)
Definition NewKeyPairInfo (id : string) (rawKey keyType : string) : res KeyPairInfo :=
  if bool_decide (rawKey = EmptyString) then Err "empty key"
  else
    let '(_, pub) := NewKeyPair id in
    pubb ← MarshalBinary pub;
    mret {| ID := id; RawKey := rawKey; KeyType := keyType;
            PubKey := EncodeBase58 pubb;
            Salt := EmptyString; EncryptedKey := EmptyString; Mac := EmptyString |}.

(** [ToKeyPair]. *)
Definition KeyPairInfo_ToKeyPair (k : KeyPairInfo) : res (PrivateKey * PublicKey) :=
  if bool_decide (RawKey k = EmptyString) then Err "empty keypair"
  else mret (NewKeyPair (ID k)).

(** The body of [Encrypt] after the guard; [rnd] is what [frand.Read]
    wrote into [salt[0:32]].  The bytes [salt[32:48]] keep the zero value
    [make] gave them.  The assignments at the end are those of the source:
    [k.Salt], [k.Mac] and [k.RawKey]; there is none to [k.EncryptedKey]. *)
Definition Encrypt_body (k : KeyPairInfo) (password rnd : bytes) : res KeyPairInfo :=
  let salt := Slice (list_inserts 0 (take 32 rnd) (elems (make 48))) [] in
  salt_kdf ← reslice salt 0 32;
  key ← scrypt_Key password salt_kdf 32768 8 1 32%Z;
  key_lo ← reslice key 0 16;
  aesBlock ← aes_NewCipher key_lo;
  iv ← reslice salt 32 48;
  stream ← cipher_NewCTR aesBlock iv;
  let inText := elems (DecodeBase58 (RawKey k)) in
  let outText := stream inText in
  key_hi ← reslice key 16 32;
  let mac := Sha3 (key_hi ++ outText) in
  mret {| ID := ID k; RawKey := EmptyString; KeyType := KeyType k; PubKey := PubKey k;
          Salt := EncodeBase58 (elems salt);
          EncryptedKey := EncryptedKey k;
          Mac := EncodeBase58 mac |}.

Definition KeyPairInfo_Encrypt (k : KeyPairInfo) (password : bytes) (g : Rng)
  : outcome * KeyPairInfo * Rng :=
  if KeyPairInfo_IsEncrypted k then (Error "already encrypted", k, g)
  else
    let '(rnd, g') := frand_Read g 32 in
    (finish k (Encrypt_body k password rnd), g').

(** The body of [Decrypt] after the guard. *)
Definition Decrypt_body (k : KeyPairInfo) (password : bytes) : res KeyPairInfo :=
  let salt := DecodeBase58 (Salt k) in
  salt_kdf ← reslice salt 0 32;
  key ← scrypt_Key password salt_kdf 32768 8 1 32%Z;
  key_lo ← reslice key 0 16;
  aesBlock ← aes_NewCipher key_lo;
  iv ← reslice salt 32 48;
  stream ← cipher_NewCTR aesBlock iv;
  let inText := elems (DecodeBase58 (EncryptedKey k)) in
  let outText := stream inText in
  key_hi ← reslice key 16 32;
  let mac := Sha3 (key_hi ++ inText) in
  if negb (bytes_Equal mac (elems (DecodeBase58 (Mac k))))
  then Err "wrong password"
  else mret {| ID := ID k; RawKey := EncodeBase58 outText;
               KeyType := KeyType k; PubKey := PubKey k;
               Salt := Salt k; EncryptedKey := EncryptedKey k;
               Mac := Mac k |}.

Definition KeyPairInfo_Decrypt (k : KeyPairInfo) (password : bytes)
  : outcome * KeyPairInfo :=
  if negb (KeyPairInfo_IsEncrypted k) then (Error "not encrypted", k)
  else finish k (Decrypt_body k password).

End KeyPair.

(** ** Methods of AccountInfo

    [range a.Keypairs] visits the entries of the map in an order Go leaves
    unspecified and that may differ from one loop to the next.  Each loop
    therefore takes the sequence of entries it visits; [visits] says that
    such a sequence is an enumeration of the map. *)

Definition visits (a : AccountInfo) (vis : list (string * ptr)) : Prop :=
  vis ≡ₚ map_to_list (Keypairs a).

Section Account.
Context `{Imports}.

(** [GetKeyPair]. *)
Definition AccountInfo_GetKeyPair (a : AccountInfo) (h : heap) (perm : string)
  : res (PrivateKey * PublicKey) :=
  match Keypairs a !! perm with
  | None => Err ("invalid permission " +:+ perm)
  | Some p =>
      match h !! p with
      | None => Crash
      | Some kp => KeyPairInfo_ToKeyPair kp
      end
  end.

(** [IsEncrypted]: the loop over the visited entries. *)
Fixpoint AccountInfo_IsEncrypted (h : heap) (vis : list (string * ptr)) : res bool :=
  match vis with
  | [] => Ret false
  | (_, p) :: rest =>
      match h !! p with
      | None => Crash
      | Some kp =>
          if KeyPairInfo_IsEncrypted kp then Ret true
          else AccountInfo_IsEncrypted h rest
      end
  end.

(** The loop of [Encrypt]: each record is updated in place, and the first
    error ends the loop. *)
Fixpoint Encrypt_loop (h : heap) (vis : list (string * ptr)) (password : bytes)
    (g : Rng) : outcome * heap * Rng :=
  match vis with
  | [] => (Nil, h, g)
  | (_, p) :: rest =>
      match h !! p with
      | None => (Panic, h, g)
      | Some kp =>
          let '(o, kp', g') := KeyPairInfo_Encrypt kp password g in
          match o with
          | Nil => Encrypt_loop (<[p := kp']> h) rest password g'
          | _ => (o, <[p := kp']> h, g')
          end
      end
  end.

(** [Encrypt]; [vis1] is the order of the loop inside [IsEncrypted],
    [vis2] that of the loop of [Encrypt] itself. *)
Definition AccountInfo_Encrypt (h : heap) (vis1 vis2 : list (string * ptr))
    (password : bytes) (g : Rng) : outcome * heap * Rng :=
  match AccountInfo_IsEncrypted h vis1 with
  | Ret true => (Error "account already encrypted", h, g)
  | Ret false => Encrypt_loop h vis2 password g
  | Err e => (Error e, h, g)
  | Crash => (Panic, h, g)
  end.

(** The loop of [Decrypt]. *)
Fixpoint Decrypt_loop (h : heap) (vis : list (string * ptr)) (password : bytes)
    : outcome * heap :=
  match vis with
  | [] => (Nil, h)
  | (_, p) :: rest =>
      match h !! p with
      | None => (Panic, h)
      | Some kp =>
          let '(o, kp') := KeyPairInfo_Decrypt kp password in
          match o with
          | Nil => Decrypt_loop (<[p := kp']> h) rest password
          | _ => (o, <[p := kp']> h)
          end
      end
  end.

(** [Decrypt]; the line it prints on success is not modelled. *)
Definition AccountInfo_Decrypt (h : heap) (vis1 vis2 : list (string * ptr))
    (password : bytes) : outcome * heap :=
  match AccountInfo_IsEncrypted h vis1 with
  | Ret false => (Error "not encrypted", h)
  | Ret true => Decrypt_loop h vis2 password
  | Err e => (Error e, h)
  | Crash => (Panic, h)
  end.

End Account.

(** ** FileAccountStore

    The directory is a key-value store of blobs keyed by path.  Every call
    into package [os] can fail for reasons outside this model (permissions,
    a full disk); [os_env] fixes, for one run, which calls fail and with
    which message, and the time read by [time.Now]. *)

Abbreviation files := (gmap string bytes).

Record os_env : Type := {
  (** error of [os.MkdirAll(path, _)], if any *)
  mkdir_err : string → option string;
  (** error of [os.Stat(path)] other than the file not existing, if any *)
  stat_err : string → option string;
  (** error of [os.Rename(old, new)] on an existing file, if any *)
  rename_err : string → string → option string;
  (** error of [os.WriteFile(path, _, _)], if any, and what the failed call
      left under [path]: nothing new, or some content *)
  write_err : string → option (string * option bytes);
  (** [time.Now().Format(time.RFC3339)] *)
  now_RFC3339 : string;
}.

Inductive stat_result : Type :=
  | StatOk
  | StatNotExist
  | StatOther (msg : string).

Definition os_Stat (e : os_env) (fs : files) (path : string) : stat_result :=
  match stat_err e path with
  | Some msg => StatOther msg
  | None => if fs !! path is Some _ then StatOk else StatNotExist
  end.

(** [os.IsNotExist(err)] on the error of [os.Stat]. *)
Definition os_IsNotExist (r : stat_result) : bool :=
  match r with StatNotExist => true | _ => false end.

Definition os_MkdirAll (e : os_env) (fs : files) (path : string) : outcome * files :=
  match mkdir_err e path with
  | Some msg => (Error msg, fs)
  | None => (Nil, fs)
  end.

(** [os.Rename]: the blob moves to the new path, replacing what was there. *)
Definition os_Rename (e : os_env) (fs : files) (old new : string) : outcome * files :=
  match fs !! old with
  | None => (Error "no such file or directory", fs)
  | Some blob =>
      match rename_err e old new with
      | Some msg => (Error msg, fs)
      | None => (Nil, <[new := blob]> (delete old fs))
      end
  end.

Definition os_WriteFile (e : os_env) (fs : files) (path : string) (data : bytes)
  : outcome * files :=
  match write_err e path with
  | None => (Nil, <[path := data]> fs)
  | Some (msg, None) => (Error msg, fs)
  | Some (msg, Some part) => (Error msg, <[path := part]> fs)
  end.

Record FileAccountStore : Type := { AccountDir : string }.

Definition NewFileAccountStore (accountDir : string) : FileAccountStore :=
  {| AccountDir := accountDir |}.

Section Store.
Context `{Imports}.

(** [SaveTo]; the line it prints is not modelled. *)
Definition AccountInfo_SaveTo (e : os_env) (fs : files) (a : AccountInfo) (h : heap)
    (fileName : string) : outcome * files :=
  match json_MarshalIndent a h with
  | Err msg => (Error msg, fs)
  | Crash => (Panic, fs)
  | Ret data => os_WriteFile e fs fileName data
  end.

Definition account_file (s : FileAccountStore) (name : string) : string :=
  AccountDir s +:+ "/" +:+ name +:+ ".json".

Definition backup_file (s : FileAccountStore) (name timeStr : string) : string :=
  (AccountDir s +:+ "/backup") +:+ "/" +:+ name +:+ "." +:+ timeStr +:+ ".json".

(** [SaveAccount]. *)
Definition FileAccountStore_SaveAccount (s : FileAccountStore) (e : os_env)
    (fs : files) (a : AccountInfo) (h : heap) : outcome * files :=
  let dir := AccountDir s in
  match os_MkdirAll e fs dir with
  | (Nil, fs1) =>
      let fileName := account_file s (Name a) in
      if negb (os_IsNotExist (os_Stat e fs1 fileName)) then
        let timeStr := now_RFC3339 e in
        let backupDir := dir +:+ "/backup" in
        match os_MkdirAll e fs1 backupDir with
        | (Nil, fs2) =>
            let backupFileName := backup_file s (Name a) timeStr in
            match os_Rename e fs2 fileName backupFileName with
            | (Nil, fs3) => AccountInfo_SaveTo e fs3 a h fileName
            | r => r
            end
        | r => r
        end
      else AccountInfo_SaveTo e fs1 a h fileName
  | r => r
  end.

End Store.

(** ** A small instance of the imported packages

    Transparent stand-ins with the interface of the real packages, on which
    the model can be run: base58 is replaced by the identity between strings
    and their bytes, scrypt by a 32-byte prefix of password and salt, the
    CTR stream by a byte-wise XOR with the first key byte, SHA3 by list
    reversal, and the random source by a tape of bytes. *)

Module Sample.

Definition byte_xor (a b : byte) : byte :=
  default x00 (Byte.of_N (N.lxor (Byte.to_N a) (Byte.to_N b))).

Definition read (g : bytes) (n : nat) : bytes * bytes :=
  (take n (g ++ replicate n x00), drop n g).

Definition marshal (a : AccountInfo) (h : heap) : res bytes :=
  Ret (String.list_byte_of_string (Name a) ++
       concat (map (λ e : string * ptr,
                 String.list_byte_of_string e.1 ++
                 match h !! e.2 with
                 | Some kp => String.list_byte_of_string (RawKey kp +:+ EncryptedKey kp)
                 | None => []
                 end) (map_to_list (Keypairs a)))).

#[global] Instance imports : Imports := {|
  EncodeBase58 := String.string_of_list_byte;
  DecodeBase58 := λ s, Slice (String.list_byte_of_string s) [];
  Sha3 := @rev byte;
  scrypt_Key := λ password salt _ _ _ keyLen,
    Ret (Slice (take (Z.to_nat keyLen)
                  (password ++ salt ++ replicate (Z.to_nat keyLen) x00)) []);
  Block := bytes;
  aes_NewCipher := λ key,
    if decide (length key = 16) then Ret key
    else Err "crypto/aes: invalid key size";
  XORKeyStream := λ b _ src, map (byte_xor (List.hd x00 b)) src;
  Rng := bytes;
  frand_Read := read;
  PrivateKey := string;
  PublicKey := string;
  NewKeyPair := λ id, ("priv:" +:+ id, "pub:" +:+ id);
  MarshalBinary := λ pub, Ret (String.list_byte_of_string pub);
  json_MarshalIndent := marshal;
|}.

(** A tape of random bytes, a password and a freshly created record. *)
Definition tape : bytes := String.list_byte_of_string "0123456789abcdefghijklmnopqrstuvwxyz".
Definition pass : bytes := String.list_byte_of_string "correct horse".
Definition fresh : KeyPairInfo :=
  {| ID := "id-1"; RawKey := "k3y"; KeyType := "ed25519"; PubKey := "pub:id-1";
     Salt := EmptyString; EncryptedKey := EmptyString; Mac := EmptyString |}.

(** A record as loaded from a key file in encrypted state, with the MAC
    that belongs to [pass]; and one whose salt is too short. *)
Definition loaded : KeyPairInfo :=
  {| ID := "id-2"; RawKey := EmptyString; KeyType := "ed25519"; PubKey := "pub:id-2";
     Salt := "0123456789abcdefghijklmnopqrstuv0000000000000000";
     EncryptedKey := "abc";
     Mac := "cbaihgfedcba9876543" |}.
Definition short_salt : KeyPairInfo :=
  {| ID := "id-3"; RawKey := EmptyString; KeyType := "ed25519"; PubKey := "pub:id-3";
     Salt := "0123456789abcdefghijklmnopqrstuv";
     EncryptedKey := "abc";
     Mac := "cbaihgfedcba9876543" |}.

(** An account with one encrypted and one plaintext member, its heap, and
    a store that already holds a file for it. *)
Definition account : AccountInfo :=
  {| Name := "alice"; Keypairs := {[ "owner" := 1%positive; "active" := 2%positive ]} |}.
Definition records : heap := {[ 1%positive := loaded; 2%positive := fresh ]}.
Definition store : FileAccountStore := NewFileAccountStore "/keys".
Definition previous : bytes := String.list_byte_of_string "previous blob".
Definition disk : files := {[ "/keys/alice.json" := previous ]}.
Definition calm : os_env :=
  {| mkdir_err := λ _, None; stat_err := λ _, None; rename_err := λ _ _, None;
     write_err := λ _, None; now_RFC3339 := "2022-03-01T10:00:00Z" |}.

(** [fresh] after [Encrypt], that record after [Decrypt], [loaded] after
    [Decrypt], and the outcome of saving [account] over [disk]. *)
Definition encrypted : KeyPairInfo := (KeyPairInfo_Encrypt fresh pass tape).1.2.
Definition reopened : outcome * KeyPairInfo := KeyPairInfo_Decrypt encrypted pass.
Definition decrypted : KeyPairInfo := (KeyPairInfo_Decrypt loaded pass).2.
Definition saved : outcome * files :=
  FileAccountStore_SaveAccount store calm disk account records.

End Sample.

(** * Properties *)

(** ** What the imported packages are assumed to do

    Each theorem names the assumptions it uses. *)

(** [scrypt.Key] with the cost parameters of [kp.go] returns a key of the
    requested 32 bytes. *)
Definition scrypt_returns_key `{Imports} : Prop :=
  ∀ password salt, ∃ key,
    scrypt_Key password salt 32768 8 1 32%Z = Ret key ∧ length (elems key) = 32.

(** [aes.NewCipher] accepts a 16-byte key. *)
Definition aes_accepts_16 `{Imports} : Prop :=
  ∀ key, length key = 16 → ∃ b, aes_NewCipher key = Ret b.

(** Base58 decodes the empty string, and the encoding of no bytes, to no
    bytes. *)
Definition base58_empty `{Imports} : Prop :=
  elems (DecodeBase58 EmptyString) = [] ∧ elems (DecodeBase58 (EncodeBase58 [])) = [].

(** The key stream applied to no bytes gives no bytes. *)
Definition stream_empty `{Imports} : Prop :=
  ∀ b iv, XORKeyStream b iv [] = [].


(** The MAC comparison of [Decrypt] is reached and fails: every step before
    it returns a value, and the MAC computed from the derived key and the
    stored ciphertext differs from the stored one. *)
Definition mac_check_fails `{Imports} (k : KeyPairInfo) (password : bytes) : Prop :=
  let salt := DecodeBase58 (Salt k) in
  ∃ salt_kdf key key_lo aesBlock iv key_hi,
    reslice salt 0 32 = Ret salt_kdf ∧
    scrypt_Key password salt_kdf 32768 8 1 32%Z = Ret key ∧
    reslice key 0 16 = Ret key_lo ∧
    aes_NewCipher key_lo = Ret aesBlock ∧
    reslice salt 32 48 = Ret iv ∧
    reslice key 16 32 = Ret key_hi ∧
    Sha3 (key_hi ++ elems (DecodeBase58 (EncryptedKey k)))
      ≠ elems (DecodeBase58 (Mac k)).


(** ** Sequences of calls on one record

    A caller holding a record may call [Encrypt] and [Decrypt] on it any
    number of times, in any order; [after_calls] is the record such a
    sequence leaves. *)

Inductive call `{Imports} : Type :=
  | Call_Encrypt (password : bytes) (g : Rng)
  | Call_Decrypt (password : bytes).

Definition after_call `{Imports} (k : KeyPairInfo) (c : call) : KeyPairInfo :=
  match c with
  | Call_Encrypt password g => (KeyPairInfo_Encrypt k password g).1.2
  | Call_Decrypt password => (KeyPairInfo_Decrypt k password).2
  end.

Definition after_calls `{Imports} (k : KeyPairInfo) (cs : list call) : KeyPairInfo :=
  foldl after_call k cs.

(** Assumptions on the imported packages used by the further properties:
    base58 decoding inverts encoding, the key stream is an involution (CTR
    mode), and a key [scrypt.Key] returns has the 32 bytes asked for. *)
Definition base58_round_trip `{Imports} : Prop :=
  ∀ b, elems (DecodeBase58 (EncodeBase58 b)) = b.

Definition stream_involutive `{Imports} : Prop :=
  ∀ blk iv src, XORKeyStream blk iv (XORKeyStream blk iv src) = src.

Definition scrypt_key_length `{Imports} : Prop :=
  ∀ password salt key,
    scrypt_Key password salt 32768 8 1 32%Z = Ret key → length (elems key) = 32.

(** ** Reading the store: LoadAccountFrom, LoadAccount, DeleteAccount, ListAccounts

    [json.Unmarshal] is a parameter like the other imported packages: from
    a blob it gives the name and the members it describes, a member that is
    JSON [null] being no record, or an error.  [os_reads] fixes, for one
    run, which reads and removals fail and what [os.ReadDir] lists.  Error
    messages of package [os] for a missing file are those of Unix. *)

Class Decoding : Type := {
  json_Unmarshal : bytes → res (string * gmap string (option KeyPairInfo));
}.

Record os_reads : Type := {
  (** error of [os.ReadFile(path)] on an existing file, if any *)
  read_err : string → option string;
  (** error of [os.Remove(path)] on an existing file, if any *)
  remove_err : string → option string;
  (** names of the entries [os.ReadDir(dir)] returns, or its error *)
  readdir : string → res (list string);
}.

Definition os_ReadFile (r : os_reads) (fs : files) (path : string) : res bytes :=
  match fs !! path with
  | None => Err ("open " +:+ path +:+ ": no such file or directory")
  | Some data =>
      match read_err r path with
      | Some msg => Err msg
      | None => Ret data
      end
  end.

Definition os_Remove (r : os_reads) (fs : files) (path : string) : outcome * files :=
  match fs !! path with
  | None => (Error ("remove " +:+ path +:+ ": no such file or directory"), fs)
  | Some _ =>
      match remove_err r path with
      | Some msg => (Error msg, fs)
      | None => (Nil, delete path fs)
      end
  end.

(** The message of the error of [os.Stat]. *)
Definition stat_message (path : string) (st : stat_result) : string :=
  match st with
  | StatOk => EmptyString
  | StatNotExist => "stat " +:+ path +:+ ": no such file or directory"
  | StatOther msg => msg
  end.

(** The nil pointer, which no heap allocates, and the pointer of a newly
    allocated record: any pointer that is neither nil nor in use. *)
Definition nil_ptr : ptr := 1%positive.

Definition new_ptr (h : heap) : ptr := fresh ({[nil_ptr]} ∪ dom h).

(** The records an account shows: for each label the record its pointer
    leads to, if any. *)
Definition members_of (a : AccountInfo) (h : heap) : gmap string (option KeyPairInfo) :=
  (λ p, h !! p) <$> Keypairs a.

(** [json.Unmarshal] fills the map of the account: a new record is
    allocated for each member, and a [null] member gets the nil pointer. *)
Fixpoint alloc_members (h : heap) (ms : list (string * option KeyPairInfo))
  : gmap string ptr * heap :=
  match ms with
  | [] => (∅, h)
  | (l, None) :: rest =>
      let '(m, h') := alloc_members h rest in (<[l := nil_ptr]> m, h')
  | (l, Some kp) :: rest =>
      let p := new_ptr h in
      let '(m, h') := alloc_members (<[p := kp]> h) rest in (<[l := p]> m, h')
  end.

Section Reading.
Context `{Imports} `{Decoding}.

(** [LoadAccountFrom]: the account and the heap with its records. *)
Definition LoadAccountFrom (r : os_reads) (fs : files) (h : heap) (fileName : string)
  : res (AccountInfo * heap) :=
  data ← os_ReadFile r fs fileName;
  match json_Unmarshal data with
  | Ret (name, members) =>
      let '(m, h') := alloc_members h (map_to_list members) in
      Ret ({| Name := name; Keypairs := m |}, h')
  | Err msg => Err ("key store should be a json file, " +:+ msg)
  | Crash => Crash
  end.

(** [LoadAccount]. *)
Definition FileAccountStore_LoadAccount (s : FileAccountStore) (e : os_env)
    (r : os_reads) (fs : files) (h : heap) (name : string) : res (AccountInfo * heap) :=
  let fileName := account_file s name in
  match os_Stat e fs fileName with
  | StatOk => LoadAccountFrom r fs h fileName
  | st =>
      Err ("account is not imported at " +:+ fileName +:+ ": "
           +:+ stat_message fileName st
           +:+ ". use 'iwallet account import " +:+ name
           +:+ " <private-key>' to import it")
  end.

(** [DeleteAccount]; the line it prints on success is not modelled. *)
Definition FileAccountStore_DeleteAccount (s : FileAccountStore) (r : os_reads)
    (fs : files) (name : string) : outcome * files :=
  os_Remove r fs (account_file s name).

(** The loop of [ListAccounts]: an entry that fails to load is reported on
    standard output (not modelled) and skipped. *)
Fixpoint ListAccounts_loop (s : FileAccountStore) (r : os_reads) (fs : files)
    (h : heap) (names : list string) : res (list AccountInfo * heap) :=
  match names with
  | [] => Ret ([], h)
  | n :: rest =>
      match LoadAccountFrom r fs h (AccountDir s +:+ "/" +:+ n) with
      | Ret (acc, h') =>
          '(accs, h'') ← ListAccounts_loop s r fs h' rest;
          Ret (acc :: accs, h'')
      | Err _ => ListAccounts_loop s r fs h rest
      | Crash => Crash
      end
  end.

(** [ListAccounts]. *)
Definition FileAccountStore_ListAccounts (s : FileAccountStore) (r : os_reads)
    (fs : files) (h : heap) : res (list AccountInfo * heap) :=
  names ← readdir r (AccountDir s);
  ListAccounts_loop s r fs h names.

(** An entry that cannot be read or cannot be decoded. *)
Definition unloadable (r : os_reads) (fs : files) (path : string) : Prop :=
  (∃ msg, os_ReadFile r fs path = Err msg) ∨
  (∃ data msg, os_ReadFile r fs path = Ret data ∧ json_Unmarshal data = Err msg).

End Reading.

(** Sample data for the further properties: a decoder that knows the blob
    of [Sample.account], reads that do not fail, a directory listing, and
    accounts of plaintext records with and without a shared record. *)

Module More.

Definition blob : bytes :=
  Eval vm_compute in
    match Sample.marshal Sample.account Sample.records with
    | Ret data => data
    | _ => []
    end.

#[global] Instance decoding : Decoding := {|
  json_Unmarshal := λ data,
    if decide (data = blob)
    then Ret ("alice", members_of Sample.account Sample.records)
    else Err "invalid character"
|}.

Definition reads : os_reads :=
  {| read_err := λ _, None; remove_err := λ _, None;
     readdir := λ _, Ret ["alice.json"; "backup"] |}.

Definition second : KeyPairInfo :=
  {| ID := "id-4"; RawKey := "k4y"; KeyType := "ed25519"; PubKey := "pub:id-4";
     Salt := EmptyString; EncryptedKey := EmptyString; Mac := EmptyString |}.

Definition plain_records : heap := {[ 2%positive := Sample.fresh; 3%positive := second ]}.

Definition plain_account : AccountInfo :=
  {| Name := "bob"; Keypairs := {[ "owner" := 2%positive; "active" := 3%positive ]} |}.

Definition shared_account : AccountInfo :=
  {| Name := "carol"; Keypairs := {[ "owner" := 2%positive; "active" := 2%positive ]} |}.

Definition plain_vis : list (string * ptr) := map_to_list (Keypairs plain_account).
Definition shared_vis : list (string * ptr) := map_to_list (Keypairs shared_account).

Definition encrypted_records : heap :=
  (AccountInfo_Encrypt plain_records plain_vis plain_vis Sample.pass Sample.tape).1.2.

Definition saved_twice : outcome * files :=
  FileAccountStore_SaveAccount Sample.store Sample.calm Sample.saved.2
    Sample.account Sample.records.

End More.

(** An account as a key file with a [null] member gives it: next to the
    encrypted and the plaintext member of [Sample.account], a label whose
    pointer is [nil] (the heap [Sample.records] holds nothing under it),
    and an order of visiting the map that meets the [nil] member first;
    and a run of the store in which a call into [os] fails. *)

Module Edge.

Definition account : AccountInfo :=
  {| Name := "dave";
     Keypairs := {[ "owner" := 1%positive; "active" := 2%positive;
                    "guest" := 9%positive ]} |}.

Definition vis : list (string * ptr) :=
  [("guest", 9%positive); ("owner", 1%positive); ("active", 2%positive)].


End Edge.

(** ** Results and slices *)

Lemma bind_Ret {A B} (f : A → res B) (a : A) : Ret a ≫= f = f a.
Proof. reflexivity. Qed.

Lemma bind_Err {A B} (f : A → res B) (e : string) : Err e ≫= f = Err e.
Proof. reflexivity. Qed.

Lemma bind_Crash {A B} (f : A → res B) : Crash ≫= f = Crash.
Proof. reflexivity. Qed.

Lemma reslice_in_range s lo hi :
  lo ≤ hi → hi ≤ cap s →
  reslice s lo hi = Ret (take (hi - lo) (drop lo (elems s ++ spare s))).
Proof. intros. unfold reslice. by rewrite decide_True. Qed.

Lemma reslice_out_of_range s lo hi : cap s < hi → reslice s lo hi = Crash.
Proof. intros. unfold reslice. rewrite decide_False; [done | lia]. Qed.

Lemma reslice_Ret s lo hi b :
  reslice s lo hi = Ret b → hi ≤ cap s ∧ length b = hi - lo.
Proof.
  unfold reslice, cap. case_decide as Hr; [|done]. intros [= <-].
  split; [lia|]. rewrite length_take, length_drop, length_app. lia.
Qed.

Lemma make_salt_length (rnd : bytes) :
  length (list_inserts 0 (take 32 rnd) (elems (make 48))) = 48.
Proof. by rewrite length_inserts. Qed.

(** ** Shape of the results of [Encrypt] and [Decrypt] *)

Section Shape.
Context `{Imports}.

Lemma IsEncrypted_false k :
  KeyPairInfo_IsEncrypted k = false ↔ RawKey k ≠ EmptyString ∧ EncryptedKey k = EmptyString.
Proof.
  unfold KeyPairInfo_IsEncrypted.
  rewrite orb_false_iff, negb_false_iff, bool_decide_eq_true, bool_decide_eq_false.
  tauto.
Qed.

Lemma IsEncrypted_true k :
  KeyPairInfo_IsEncrypted k = true ↔ RawKey k = EmptyString ∨ EncryptedKey k ≠ EmptyString.
Proof.
  unfold KeyPairInfo_IsEncrypted.
  rewrite orb_true_iff, negb_true_iff, bool_decide_eq_true, bool_decide_eq_false.
  tauto.
Qed.

Lemma Encrypt_body_Ret k password rnd k' :
  Encrypt_body k password rnd = Ret k' →
  ∃ salt mac, length salt = 48 ∧
    k' = {| ID := ID k; RawKey := EmptyString; KeyType := KeyType k; PubKey := PubKey k;
            Salt := EncodeBase58 salt; EncryptedKey := EncryptedKey k;
            Mac := EncodeBase58 mac |}.
Proof.
  unfold Encrypt_body. cbn -[reslice make take].
  repeat (match goal with
          | |- context [mbind _ ?m] => destruct m eqn:?
          end; cbn -[reslice make take]; try done).
  intros [= <-]. eexists _, _. split; [|done]. apply make_salt_length.
Qed.

Lemma Decrypt_body_Ret k password k' :
  Decrypt_body k password = Ret k' →
  ∃ b iv,
    k' = {| ID := ID k;
            RawKey := EncodeBase58 (XORKeyStream b iv (elems (DecodeBase58 (EncryptedKey k))));
            KeyType := KeyType k; PubKey := PubKey k;
            Salt := Salt k; EncryptedKey := EncryptedKey k; Mac := Mac k |}.
Proof.
  unfold Decrypt_body, cipher_NewCTR. cbn -[reslice].
  repeat (match goal with
          | |- context [decide ?P] => destruct (decide P)
          | |- context [mbind _ ?m] => destruct m eqn:?
          | |- context [negb ?b] => destruct b
          end; cbn -[reslice]; try done).
  intros [= <-]. by eexists _, _.
Qed.

Lemma Encrypt_unfold k password g :
  KeyPairInfo_IsEncrypted k = false →
  KeyPairInfo_Encrypt k password g =
    (finish k (Encrypt_body k password (frand_Read g 32).1), (frand_Read g 32).2).
Proof. intros Hk. unfold KeyPairInfo_Encrypt. rewrite Hk. by destruct (frand_Read g 32). Qed.

Lemma Decrypt_unfold k password :
  KeyPairInfo_IsEncrypted k = true →
  KeyPairInfo_Decrypt k password = finish k (Decrypt_body k password).
Proof. intros Hk. unfold KeyPairInfo_Decrypt. by rewrite Hk. Qed.

(** With [scrypt.Key] and [aes.NewCipher] behaving as in the real
    packages, the body of [Encrypt] runs to its end. *)
Lemma Encrypt_body_succeeds k password rnd :
  scrypt_returns_key → aes_accepts_16 →
  ∃ k', Encrypt_body k password rnd = Ret k'.
Proof.
  intros Hs Ha. unfold Encrypt_body, cipher_NewCTR. cbv zeta.
  set (salt := Slice _ []).
  assert (Hcap : cap salt = 48).
  { unfold cap, salt. cbn [elems spare]. by rewrite make_salt_length. }
  destruct (reslice salt 0 32) as [s1| |] eqn:Hs1;
    [|by rewrite reslice_in_range in Hs1 by lia..].
  rewrite bind_Ret. destruct (Hs password s1) as (key & -> & Hlen).
  rewrite bind_Ret.
  assert (Hk : 32 ≤ cap key) by (unfold cap; lia).
  destruct (reslice key 0 16) as [klo| |] eqn:Hlo;
    [|by rewrite reslice_in_range in Hlo by lia..].
  apply reslice_Ret in Hlo as [_ Hlo]. rewrite bind_Ret.
  destruct (Ha klo) as [b ->]; [lia|]. rewrite bind_Ret.
  destruct (reslice salt 32 48) as [iv| |] eqn:Hiv;
    [|by rewrite reslice_in_range in Hiv by lia..].
  apply reslice_Ret in Hiv as [_ Hiv]. rewrite bind_Ret.
  rewrite decide_True by (unfold aes_BlockSize; lia). rewrite bind_Ret.
  rewrite (reslice_in_range key 16 32) by lia. rewrite bind_Ret.
  by eexists.
Qed.

Lemma NewKeyPairInfo_Ret id rawKey keyType k :
  NewKeyPairInfo id rawKey keyType = Ret k →
  rawKey ≠ EmptyString ∧ RawKey k = rawKey ∧ EncryptedKey k = EmptyString ∧
  Salt k = EmptyString ∧ Mac k = EmptyString ∧ ID k = id ∧ KeyType k = keyType.
Proof.
  unfold NewKeyPairInfo. case_bool_decide as Hr; [done|].
  destruct (NewKeyPair id) as [priv pub]. cbn.
  destruct (MarshalBinary pub); cbn; [|done..]. by intros [= <-].
Qed.

Lemma NewKeyPairInfo_not_encrypted id rawKey keyType k :
  NewKeyPairInfo id rawKey keyType = Ret k → KeyPairInfo_IsEncrypted k = false.
Proof.
  intros (Hne & Hr & He & _)%NewKeyPairInfo_Ret.
  apply IsEncrypted_false. by rewrite Hr, He.
Qed.

End Shape.

(** ** Key records *)

Section KeyPairProperties.
Context `{Imports}.

Lemma finish_cases k r :
  finish k r = (Nil, (finish k r).2) ∧ r = Ret (finish k r).2 ∨
  (finish k r).1 ≠ Nil ∧ (finish k r).2 = k.
Proof. destruct r; cbn; auto. Qed.

(** Whatever [Encrypt] returns, the record afterwards is the record
    before, or the record before with [RawKey] cleared and [Salt] and
    [Mac] set. *)
Lemma Encrypt_cases k password g :
  let '(o, k', _) := KeyPairInfo_Encrypt k password g in
  o ≠ Nil ∧ k' = k ∨
  o = Nil ∧ KeyPairInfo_IsEncrypted k = false ∧
    ∃ salt mac, length salt = 48 ∧
      k' = {| ID := ID k; RawKey := EmptyString; KeyType := KeyType k;
              PubKey := PubKey k; Salt := EncodeBase58 salt;
              EncryptedKey := EncryptedKey k; Mac := EncodeBase58 mac |}.
Proof.
  unfold KeyPairInfo_Encrypt.
  destruct (KeyPairInfo_IsEncrypted k) eqn:Hk; [by left|].
  destruct (frand_Read g 32) as [rnd g'].
  destruct (Encrypt_body k password rnd) as [k'| |] eqn:Hb; cbn; [|by left..].
  right. apply Encrypt_body_Ret in Hb. auto.
Qed.

(** The same for [Decrypt]: unchanged, or [RawKey] set to the encoding of
    the key stream applied to the decoded [EncryptedKey]. *)
Lemma Decrypt_cases k password :
  let '(o, k') := KeyPairInfo_Decrypt k password in
  o ≠ Nil ∧ k' = k ∨
  o = Nil ∧ KeyPairInfo_IsEncrypted k = true ∧
    ∃ b iv,
      k' = {| ID := ID k;
              RawKey := EncodeBase58
                (XORKeyStream b iv (elems (DecodeBase58 (EncryptedKey k))));
              KeyType := KeyType k; PubKey := PubKey k; Salt := Salt k;
              EncryptedKey := EncryptedKey k; Mac := Mac k |}.
Proof.
  unfold KeyPairInfo_Decrypt.
  destruct (KeyPairInfo_IsEncrypted k) eqn:Hk; cbn [negb]; [|by left].
  destruct (Decrypt_body k password) as [k'| |] eqn:Hb; cbn; [|by left..].
  right. apply Decrypt_body_Ret in Hb. auto.
Qed.

(** C10. [Encrypt] and [Decrypt] never modify the [ID], [KeyType] or
    [PubKey] of the record, whether they return [nil], return an error or
    panic. *)
Theorem Encrypt_Decrypt_frame k password g :
  (ID (KeyPairInfo_Encrypt k password g).1.2 = ID k ∧
   KeyType (KeyPairInfo_Encrypt k password g).1.2 = KeyType k ∧
   PubKey (KeyPairInfo_Encrypt k password g).1.2 = PubKey k) ∧
  (ID (KeyPairInfo_Decrypt k password).2 = ID k ∧
   KeyType (KeyPairInfo_Decrypt k password).2 = KeyType k ∧
   PubKey (KeyPairInfo_Decrypt k password).2 = PubKey k).
Proof.
  split.
  - pose proof (Encrypt_cases k password g) as He.
    destruct (KeyPairInfo_Encrypt k password g) as [[o k'] g']. cbn.
    destruct He as [[_ ->]|(_ & _ & salt & mac & _ & ->)]; done.
  - pose proof (Decrypt_cases k password) as Hd.
    destruct (KeyPairInfo_Decrypt k password) as [o k']. cbn.
    destruct Hd as [[_ ->]|(_ & _ & b & iv & ->)]; done.
Qed.

(** C2. On a plaintext record [Encrypt] never stores the ciphertext: after
    the call [EncryptedKey] is still empty.  When the call returns [nil]
    the rest of the postcondition holds: [RawKey] is cleared, and [Salt]
    and [Mac] hold the encodings of the 48-byte salt and of the MAC. *)
Theorem Encrypt_stores_no_ciphertext k password g o k' g' :
  KeyPairInfo_IsEncrypted k = false →
  KeyPairInfo_Encrypt k password g = (o, k', g') →
  EncryptedKey k' = EmptyString ∧
  (o = Nil → RawKey k' = EmptyString ∧
     ∃ salt mac, length salt = 48 ∧
       Salt k' = EncodeBase58 salt ∧ Mac k' = EncodeBase58 mac).
Proof.
  intros [_ He]%IsEncrypted_false Hr.
  pose proof (Encrypt_cases k password g) as Hc. rewrite Hr in Hc.
  destruct Hc as [[Ho ->]|(_ & _ & salt & mac & Hlen & ->)]; cbn; [done|].
  split; [done|]. intros _. split; [done|]. by exists salt, mac.
Qed.

(** C1. The round trip fails for every raw key that decodes to at least
    one byte: after [Encrypt] returned [nil] the record holds no
    ciphertext, so a following [Decrypt] with the same password either
    does not return [nil] or leaves a [RawKey] that does not decode to the
    bytes of the original key. *)
Theorem Encrypt_Decrypt_loses_key id rawKey keyType k password g k1 g1 o k2 :
  base58_empty → stream_empty →
  NewKeyPairInfo id rawKey keyType = Ret k →
  elems (DecodeBase58 rawKey) ≠ [] →
  KeyPairInfo_Encrypt k password g = (Nil, k1, g1) →
  KeyPairInfo_Decrypt k1 password = (o, k2) →
  EncryptedKey k1 = EmptyString ∧
  ¬ (o = Nil ∧ elems (DecodeBase58 (RawKey k2)) = elems (DecodeBase58 rawKey)).
Proof.
  intros [Hd0 Hde] Hx Hnew Hne He Hd.
  apply NewKeyPairInfo_Ret in Hnew as (_ & _ & Hk & _).
  assert (Hc : EncryptedKey k1 = EmptyString).
  { pose proof (Encrypt_cases k password g) as Hcs. rewrite He in Hcs.
    by destruct Hcs as [[? _]|(_ & _ & salt & mac & _ & ->)]. }
  split; [done|]. intros [-> Heq].
  pose proof (Decrypt_cases k1 password) as Hcs. rewrite Hd in Hcs.
  destruct Hcs as [[? _]|(_ & _ & b & iv & ->)]; [done|].
  cbn in Heq. rewrite Hc, Hd0, Hx, Hde in Heq. done.
Qed.

(** C4. On an encrypted record, when the MAC check fails [Decrypt]
    returns the error "wrong password" and leaves every field of the
    record as it was. *)
Theorem Decrypt_wrong_password k password :
  KeyPairInfo_IsEncrypted k = true →
  mac_check_fails k password →
  KeyPairInfo_Decrypt k password = (Error "wrong password", k).
Proof.
  intros Hk (s1 & key & klo & b & iv & khi & H1 & H2 & H3 & H4 & H5 & H6 & Hmac).
  rewrite Decrypt_unfold by done. unfold Decrypt_body, cipher_NewCTR. cbv zeta.
  rewrite H1, bind_Ret, H2, bind_Ret, H3, bind_Ret, H4, bind_Ret, H5, bind_Ret.
  apply reslice_Ret in H5 as [_ H5].
  rewrite decide_True by (unfold aes_BlockSize; lia).
  rewrite bind_Ret, H6, bind_Ret. unfold bytes_Equal.
  by rewrite bool_decide_eq_false_2.
Qed.

(** Every error [Decrypt] returns is one of its two own messages or comes
    from [scrypt.Key] or [aes.NewCipher]: there is no error for a malformed
    record. *)
Lemma Decrypt_error_origin k password msg k' :
  KeyPairInfo_Decrypt k password = (Error msg, k') →
  msg = "not encrypted" ∨ msg = "wrong password" ∨
  (∃ salt, scrypt_Key password salt 32768 8 1 32%Z = Err msg) ∨
  (∃ key, aes_NewCipher key = Err msg).
Proof.
  unfold KeyPairInfo_Decrypt.
  destruct (KeyPairInfo_IsEncrypted k); cbn [negb]; [|intros [= <- _]; by left].
  unfold Decrypt_body, cipher_NewCTR, reslice. cbv zeta.
  repeat (match goal with
          | |- context [decide ?P] => destruct (decide P)
          | |- context [scrypt_Key ?p ?s ?n ?r ?q ?l] =>
              destruct (scrypt_Key p s n r q l) eqn:?
          | |- context [aes_NewCipher ?c] => destruct (aes_NewCipher c) eqn:?
          | |- context [negb ?b] => destruct b
          end; rewrite ?bind_Ret, ?bind_Err, ?bind_Crash; cbn [finish negb];
          try done);
    intros [= <- _]; eauto 6.
Qed.

(** C5. With [scrypt.Key] and [aes.NewCipher] behaving as in the real
    packages, [Decrypt] on an encrypted record whose decoded salt has a
    capacity below 48 bytes panics on a slice expression; it returns no
    error at all. *)
Theorem Decrypt_short_salt_panics k password :
  scrypt_returns_key → aes_accepts_16 →
  KeyPairInfo_IsEncrypted k = true →
  cap (DecodeBase58 (Salt k)) < 48 →
  KeyPairInfo_Decrypt k password = (Panic, k).
Proof.
  intros Hs Ha Hk Hcap. rewrite Decrypt_unfold by done.
  unfold Decrypt_body, cipher_NewCTR. cbv zeta.
  destruct (reslice (DecodeBase58 (Salt k)) 0 32) as [s1| |] eqn:Hs1;
    [|by unfold reslice in Hs1; case_decide|done].
  rewrite bind_Ret. destruct (Hs password s1) as (key & -> & Hlen).
  rewrite bind_Ret.
  assert (Hkey : 32 ≤ cap key) by (unfold cap; lia).
  destruct (reslice key 0 16) as [klo| |] eqn:Hlo;
    [|by rewrite reslice_in_range in Hlo by lia..].
  apply reslice_Ret in Hlo as [_ Hlo]. rewrite bind_Ret.
  destruct (Ha klo) as [b ->]; [lia|]. rewrite bind_Ret.
  rewrite (reslice_out_of_range (DecodeBase58 (Salt k)) 32 48) by done.
  reflexivity.
Qed.

(** C6. On a plaintext record (as [NewKeyPairInfo] creates them, see
    [NewKeyPairInfo_not_encrypted]): once a first [Encrypt] has returned
    [nil], a second [Encrypt], with any password, returns
    "already encrypted" and changes nothing; the first call does return
    [nil] when [scrypt.Key] and [aes.NewCipher] behave as in the real
    packages; and [Decrypt] on the plaintext record returns
    "not encrypted" and changes nothing. *)
Theorem state_guards k password g :
  KeyPairInfo_IsEncrypted k = false →
  (∀ k1 g1, KeyPairInfo_Encrypt k password g = (Nil, k1, g1) →
     ∀ password' g', KeyPairInfo_Encrypt k1 password' g'
                     = (Error "already encrypted", k1, g')) ∧
  (scrypt_returns_key → aes_accepts_16 →
     ∃ k1 g1, KeyPairInfo_Encrypt k password g = (Nil, k1, g1)) ∧
  KeyPairInfo_Decrypt k password = (Error "not encrypted", k).
Proof.
  intros Hk. split_and!.
  - intros k1 g1 He password' g'.
    pose proof (Encrypt_cases k password g) as Hc. rewrite He in Hc.
    destruct Hc as [[? _]|(_ & _ & salt & mac & _ & ->)]; [done|].
    unfold KeyPairInfo_Encrypt.
    rewrite (proj2 (IsEncrypted_true _)); [done|by left].
  - intros Hs Ha. rewrite Encrypt_unfold by done.
    destruct (Encrypt_body_succeeds k password (frand_Read g 32).1 Hs Ha)
      as [k1 Hb]. rewrite Hb. cbn [finish]. by eexists _, _.
  - unfold KeyPairInfo_Decrypt. by rewrite Hk.
Qed.




End KeyPairProperties.

(** ** Accounts *)

Section AccountProperties.
Context `{Imports}.




End AccountProperties.

(** ** The account store *)

Lemma string_length_app (s1 s2 : string) :
  String.length (s1 +:+ s2) = String.length s1 + String.length s2.
Proof.
  induction s1 as [|c s1 IH]; [done|].
  change (String c s1 +:+ s2) with (String c (s1 +:+ s2)). cbn. by rewrite IH.
Qed.

Lemma backup_file_fresh s name timeStr :
  account_file s name ≠ backup_file s name timeStr.
Proof.
  unfold account_file, backup_file. intros Heq%(f_equal String.length).
  rewrite !string_length_app in Heq. cbn in Heq. lia.
Qed.

Section StoreProperties.
Context `{Imports}.


End StoreProperties.

(** * The model at work on the sample instance *)

Lemma Sample_scrypt_returns_key : @scrypt_returns_key Sample.imports.
Proof.
  intros password salt. eexists. split; [reflexivity|]. cbn.
  rewrite length_take, !length_app, length_replicate. lia.
Qed.

Lemma Sample_aes_accepts_16 : @aes_accepts_16 Sample.imports.
Proof. intros key Hlen. exists key. cbn. by rewrite decide_True. Qed.

Lemma Sample_base58_empty : @base58_empty Sample.imports.
Proof. by split. Qed.

Lemma Sample_stream_empty : @stream_empty Sample.imports.
Proof. by intros b iv. Qed.

Example sample_new : NewKeyPairInfo "id-1" "k3y" "ed25519" = Ret Sample.fresh.
Proof. reflexivity. Qed.

(** The defect seen at work: the record that comes out of [Encrypt] has no
    ciphertext, and [Decrypt] with the same password rejects it. *)
Example sample_Encrypt :
  KeyPairInfo_Encrypt Sample.fresh Sample.pass Sample.tape
  = (Nil,
     {| ID := "id-1"; RawKey := EmptyString; KeyType := "ed25519"; PubKey := "pub:id-1";
        Salt := EncodeBase58 (take 32 Sample.tape ++ replicate 16 x00);
        EncryptedKey := EmptyString;
        Mac := EncodeBase58
                 (Sha3 (String.list_byte_of_string "3456789abcdefghi"
                        ++ map (Sample.byte_xor "c") (String.list_byte_of_string "k3y"))) |},
     drop 32 Sample.tape).
Proof. vm_compute. reflexivity. Qed.

Example sample_Encrypt_Decrypt :
  Sample.reopened = (Error "wrong password", Sample.encrypted).
Proof. vm_compute. reflexivity. Qed.

(** A record loaded in encrypted state decrypts with the right password,
    and then holds the raw key next to the encrypted one. *)
Example sample_Decrypt_loaded :
  KeyPairInfo_Decrypt Sample.loaded Sample.pass
  = (Nil,
     {| ID := "id-2";
        RawKey := EncodeBase58 (map (Sample.byte_xor "c") (String.list_byte_of_string "abc"));
        KeyType := "ed25519"; PubKey := "pub:id-2";
        Salt := Salt Sample.loaded; EncryptedKey := "abc"; Mac := Mac Sample.loaded |}).
Proof. vm_compute. reflexivity. Qed.

Example sample_SaveAccount :
  Sample.saved.1 = Nil ∧
  Sample.saved.2 !! "/keys/backup/alice.2022-03-01T10:00:00Z.json" = Some Sample.previous ∧
  Some (Ret (default [] (Sample.saved.2 !! "/keys/alice.json")))
    = Some (json_MarshalIndent Sample.account Sample.records).
Proof. vm_compute. done. Qed.

(** ** Instances of the theorems, and inputs on which a claim fails *)

Lemma Encrypt_stores_no_ciphertext_sample :
  KeyPairInfo_IsEncrypted Sample.fresh = false ∧
  EncryptedKey Sample.encrypted = EmptyString.
Proof.
  split; [reflexivity|].
  refine (proj1 (Encrypt_stores_no_ciphertext (H:=Sample.imports)
                   Sample.fresh Sample.pass Sample.tape
                   Nil _ (drop 32 Sample.tape) _ _)); vm_compute; reflexivity.
Defined.

Lemma Encrypt_Decrypt_loses_key_sample :
  NewKeyPairInfo "id-1" "k3y" "ed25519" = Ret Sample.fresh ∧
  elems (DecodeBase58 "k3y") ≠ [] ∧
  EncryptedKey Sample.encrypted = EmptyString ∧
  ¬ (Sample.reopened.1 = Nil ∧
     elems (DecodeBase58 (RawKey Sample.reopened.2)) = elems (DecodeBase58 "k3y")).
Proof.
  split; [reflexivity|]. split; [by vm_compute|].
  apply (Encrypt_Decrypt_loses_key (H:=Sample.imports) "id-1" "k3y" "ed25519"
           Sample.fresh Sample.pass Sample.tape _ (drop 32 Sample.tape));
    [apply Sample_base58_empty | apply Sample_stream_empty | reflexivity
    | by vm_compute | vm_compute; reflexivity | vm_compute; reflexivity].
Defined.

Lemma Decrypt_wrong_password_sample :
  KeyPairInfo_IsEncrypted Sample.encrypted = true ∧
  KeyPairInfo_Decrypt Sample.encrypted (String.list_byte_of_string "another")
    = (Error "wrong password", Sample.encrypted).
Proof.
  split; [reflexivity|].
  apply (Decrypt_wrong_password (H:=Sample.imports)); [reflexivity|].
  do 6 eexists. split_and!; [vm_compute; reflexivity..|by vm_compute].
Defined.

Lemma Decrypt_short_salt_panics_sample :
  KeyPairInfo_IsEncrypted Sample.short_salt = true ∧
  cap (DecodeBase58 (Salt Sample.short_salt)) = 32 ∧
  KeyPairInfo_Decrypt Sample.short_salt Sample.pass = (Panic, Sample.short_salt).
Proof.
  split; [reflexivity|]. split; [reflexivity|].
  apply (Decrypt_short_salt_panics (H:=Sample.imports));
    [apply Sample_scrypt_returns_key | apply Sample_aes_accepts_16 | reflexivity
    | vm_compute; lia].
Defined.

Lemma state_guards_sample :
  KeyPairInfo_IsEncrypted Sample.fresh = false ∧
  KeyPairInfo_Encrypt Sample.encrypted Sample.pass Sample.tape
    = (Error "already encrypted", Sample.encrypted, Sample.tape) ∧
  KeyPairInfo_Decrypt Sample.fresh Sample.pass = (Error "not encrypted", Sample.fresh).
Proof.
  split; [reflexivity|].
  destruct (state_guards (H:=Sample.imports) Sample.fresh Sample.pass Sample.tape eq_refl)
    as (Htwice & _ & Hplain).
  split; [|exact Hplain].
  apply (Htwice Sample.encrypted (drop 32 Sample.tape)). vm_compute. reflexivity.
Defined.










(** * Further properties of the key records *)

Lemma reslice_within s lo hi :
  lo ≤ hi → hi ≤ length (elems s) →
  reslice s lo hi = Ret (take (hi - lo) (drop lo (elems s))).
Proof.
  intros Hlo Hhi. rewrite reslice_in_range by (unfold cap; lia).
  f_equal. rewrite drop_app_le by lia. rewrite take_app_le; [done|].
  rewrite length_drop. lia.
Qed.

Lemma make_salt_tail (rnd : bytes) :
  drop 32 (list_inserts 0 (take 32 rnd) (elems (make 48))) = replicate 16 x00.
Proof.
  apply list_eq. intros i. rewrite lookup_drop.
  rewrite list_lookup_inserts_ge by (rewrite length_take; lia).
  unfold make. cbn [elems]. destruct (decide (i < 16)) as [Hi|Hi].
  - rewrite !lookup_replicate_2 by lia. done.
  - rewrite !lookup_ge_None_2 by (rewrite length_replicate; lia). done.
Qed.

Lemma make_salt_head (rnd : bytes) :
  length rnd = 32 →
  take 32 (list_inserts 0 (take 32 rnd) (elems (make 48))) = rnd.
Proof.
  intros Hlen. rewrite (take_ge rnd) by lia.
  change (elems (make 48)) with (replicate 32 x00 ++ replicate 16 x00).
  rewrite list_inserts_0_r by (rewrite length_replicate; lia).
  rewrite take_app_le by lia. by rewrite take_ge by lia.
Qed.

Section KeyPairMore.
Context `{Imports}.

(** X1. On an encrypted record whose decoded salt has at least 48 bytes,
    with [scrypt.Key] returning a 32-byte key and [aes.NewCipher] a block
    for its first half, [Decrypt] is decided by the MAC alone: if the hash
    of the second key half followed by the decoded ciphertext equals the
    decoded [Mac], it returns [nil] and stores in [RawKey] the encoding of
    the key stream (block, IV [salt[32:48]]) applied to the ciphertext;
    otherwise it returns "wrong password" and changes nothing. *)
Theorem Decrypt_decided_by_mac k password key blk :
  KeyPairInfo_IsEncrypted k = true →
  48 ≤ length (elems (DecodeBase58 (Salt k))) →
  scrypt_Key password (take 32 (elems (DecodeBase58 (Salt k)))) 32768 8 1 32%Z
    = Ret key →
  length (elems key) = 32 →
  aes_NewCipher (take 16 (elems key)) = Ret blk →
  KeyPairInfo_Decrypt k password =
    if bool_decide (Sha3 (drop 16 (elems key) ++ elems (DecodeBase58 (EncryptedKey k)))
                    = elems (DecodeBase58 (Mac k)))
    then (Nil,
          {| ID := ID k;
             RawKey := EncodeBase58
               (XORKeyStream blk (take 16 (drop 32 (elems (DecodeBase58 (Salt k)))))
                  (elems (DecodeBase58 (EncryptedKey k))));
             KeyType := KeyType k; PubKey := PubKey k; Salt := Salt k;
             EncryptedKey := EncryptedKey k; Mac := Mac k |})
    else (Error "wrong password", k).
Proof.
  intros Hk Hsalt Hkey Hlen Hblk. rewrite Decrypt_unfold by done.
  unfold Decrypt_body, cipher_NewCTR, bytes_Equal. cbv zeta.
  rewrite (reslice_within _ 0 32) by lia. rewrite bind_Ret.
  rewrite drop_0, Nat.sub_0_r, Hkey, bind_Ret.
  rewrite (reslice_within key 0 16) by lia. rewrite bind_Ret.
  rewrite drop_0, Nat.sub_0_r, Hblk, bind_Ret.
  rewrite (reslice_within _ 32 48) by lia. rewrite bind_Ret.
  change (48 - 32) with 16.
  rewrite decide_True by (rewrite length_take, length_drop; unfold aes_BlockSize; lia).
  rewrite bind_Ret, (reslice_within key 16 32) by lia. rewrite bind_Ret.
  change (32 - 16) with 16.
  rewrite (take_ge (drop 16 (elems key))) by (rewrite length_drop; lia).
  by case_bool_decide.
Qed.

(** X2. [Decrypt] returns [nil] only after the MAC comparison succeeded: the
    record was encrypted, its decoded salt has a capacity of at least 48
    bytes, and for the key derived from the password and [salt[0:32]] the
    hash of [key[16:32]] followed by the decoded ciphertext is the decoded
    [Mac]; [RawKey] then holds the encoding of the decrypted ciphertext. *)
Theorem Decrypt_Nil_mac_verified k password k' :
  KeyPairInfo_Decrypt k password = (Nil, k') →
  KeyPairInfo_IsEncrypted k = true ∧
  48 ≤ cap (DecodeBase58 (Salt k)) ∧
  ∃ salt_kdf key key_lo blk iv key_hi,
    reslice (DecodeBase58 (Salt k)) 0 32 = Ret salt_kdf ∧
    scrypt_Key password salt_kdf 32768 8 1 32%Z = Ret key ∧
    reslice key 0 16 = Ret key_lo ∧
    aes_NewCipher key_lo = Ret blk ∧
    reslice (DecodeBase58 (Salt k)) 32 48 = Ret iv ∧
    reslice key 16 32 = Ret key_hi ∧
    Sha3 (key_hi ++ elems (DecodeBase58 (EncryptedKey k)))
      = elems (DecodeBase58 (Mac k)) ∧
    RawKey k' = EncodeBase58 (XORKeyStream blk iv (elems (DecodeBase58 (EncryptedKey k)))).
Proof.
  unfold KeyPairInfo_Decrypt.
  destruct (KeyPairInfo_IsEncrypted k) eqn:Hk; cbn [negb]; [|done].
  unfold Decrypt_body, cipher_NewCTR, bytes_Equal. cbv zeta.
  destruct (reslice (DecodeBase58 (Salt k)) 0 32) as [s1| |] eqn:H1; [|done..].
  rewrite bind_Ret.
  destruct (scrypt_Key password s1 32768 8 1 32%Z) as [key| |] eqn:H2; [|done..].
  rewrite bind_Ret.
  destruct (reslice key 0 16) as [klo| |] eqn:H3; [|done..]. rewrite bind_Ret.
  destruct (aes_NewCipher klo) as [blk| |] eqn:H4; [|done..]. rewrite bind_Ret.
  destruct (reslice (DecodeBase58 (Salt k)) 32 48) as [iv| |] eqn:H5; [|done..].
  rewrite bind_Ret. case_decide; [|done]. rewrite bind_Ret.
  destruct (reslice key 16 32) as [khi| |] eqn:H6; [|done..]. rewrite bind_Ret.
  case_bool_decide as Hmac; cbn [negb finish]; [|done]. intros [= <-].
  split; [done|]. split; [by apply reslice_Ret in H5 as [? _]|].
  exists s1, key, klo, blk, iv, khi. by split_and!.
Qed.

Lemma Decrypt_body_ignores_RawKey k1 k2 password :
  ID k1 = ID k2 → KeyType k1 = KeyType k2 → PubKey k1 = PubKey k2 →
  Salt k1 = Salt k2 → EncryptedKey k1 = EncryptedKey k2 → Mac k1 = Mac k2 →
  Decrypt_body k1 password = Decrypt_body k2 password.
Proof.
  destruct k1, k2. cbn. intros -> -> -> -> -> ->. reflexivity.
Qed.

(** X3. Decryption is repeatable: on a record with a non-empty
    [EncryptedKey], calling [Decrypt] a second time with the same password
    returns what the first call returned and leaves the record the first
    call left, whether that was [nil], an error or a panic. *)
Theorem Decrypt_repeatable k password :
  EncryptedKey k ≠ EmptyString →
  KeyPairInfo_Decrypt (KeyPairInfo_Decrypt k password).2 password
    = KeyPairInfo_Decrypt k password.
Proof.
  intros Hne.
  pose proof (Decrypt_cases k password) as Hc.
  destruct (KeyPairInfo_Decrypt k password) as [o k'] eqn:Hd. cbn [snd].
  destruct Hc as [[_ ->]|(-> & Hk & b & iv & Hk')]; [done|].
  assert (Hk2 : KeyPairInfo_IsEncrypted k' = true).
  { apply IsEncrypted_true. right. by rewrite Hk'. }
  rewrite <- Hd, !Decrypt_unfold by done.
  rewrite (Decrypt_body_ignores_RawKey k' k) by (by rewrite Hk').
  rewrite Decrypt_unfold in Hd by done.
  destruct (Decrypt_body k password) as [k''| |]; cbn [finish] in *; [|done..].
  congruence.
Qed.

(** X4. A non-empty [EncryptedKey] is never left: whatever sequence of
    [Encrypt] and [Decrypt] calls is made on such a record, with whatever
    passwords, the record still reports itself encrypted, its
    [EncryptedKey], [Salt] and [Mac] are the original ones, and [Encrypt]
    is refused with "already encrypted". *)
Theorem encrypted_key_stays k cs :
  EncryptedKey k ≠ EmptyString →
  KeyPairInfo_IsEncrypted (after_calls k cs) = true ∧
  EncryptedKey (after_calls k cs) = EncryptedKey k ∧
  Salt (after_calls k cs) = Salt k ∧
  Mac (after_calls k cs) = Mac k ∧
  ∀ password g,
    KeyPairInfo_Encrypt (after_calls k cs) password g
      = (Error "already encrypted", after_calls k cs, g).
Proof.
  intros Hne. unfold after_calls.
  assert (Hinv : EncryptedKey (foldl after_call k cs) = EncryptedKey k ∧
                 Salt (foldl after_call k cs) = Salt k ∧
                 Mac (foldl after_call k cs) = Mac k).
  { induction cs as [|c cs IH] using rev_ind; [done|].
    rewrite foldl_app. cbn [foldl]. destruct IH as (IHe & IHs & IHm).
    set (k1 := foldl after_call k cs) in *.
    assert (Henc : KeyPairInfo_IsEncrypted k1 = true).
    { apply IsEncrypted_true. right. by rewrite IHe. }
    destruct c as [password g|password]; cbn [after_call].
    - unfold KeyPairInfo_Encrypt. by rewrite Henc.
    - pose proof (Decrypt_cases k1 password) as Hc.
      destruct (KeyPairInfo_Decrypt k1 password) as [o k2]. cbn [snd].
      by destruct Hc as [[_ ->]|(_ & _ & b & iv & ->)]. }
  destruct Hinv as (He & Hs & Hm).
  assert (Henc : KeyPairInfo_IsEncrypted (foldl after_call k cs) = true).
  { apply IsEncrypted_true. right. by rewrite He. }
  split_and!; [done..|].
  intros password g. unfold KeyPairInfo_Encrypt. by rewrite Henc.
Qed.

(** What the body of [Encrypt] computes when it runs to its end: the salt
    is the 32 bytes read from the random source followed by the 16 zero
    bytes [make] left, and those zero bytes are the IV of the key stream. *)
Lemma Encrypt_body_Ret_full k password rnd k' :
  Encrypt_body k password rnd = Ret k' →
  ∃ key key_lo blk key_hi,
    scrypt_Key password
      (take 32 (list_inserts 0 (take 32 rnd) (elems (make 48)))) 32768 8 1 32%Z
      = Ret key ∧
    reslice key 0 16 = Ret key_lo ∧
    aes_NewCipher key_lo = Ret blk ∧
    reslice key 16 32 = Ret key_hi ∧
    k' = {| ID := ID k; RawKey := EmptyString; KeyType := KeyType k; PubKey := PubKey k;
            Salt := EncodeBase58 (list_inserts 0 (take 32 rnd) (elems (make 48)));
            EncryptedKey := EncryptedKey k;
            Mac := EncodeBase58
              (Sha3 (key_hi ++ XORKeyStream blk (replicate 16 x00)
                                 (elems (DecodeBase58 (RawKey k))))) |}.
Proof.
  unfold Encrypt_body, cipher_NewCTR. cbv zeta.
  set (salt := list_inserts 0 (take 32 rnd) (elems (make 48))).
  assert (Hlen : length salt = 48) by apply make_salt_length.
  rewrite (reslice_within (Slice salt []) 0 32) by (cbn [elems]; lia).
  rewrite (reslice_within (Slice salt []) 32 48) by (cbn [elems]; lia).
  cbn [elems]. rewrite bind_Ret, drop_0. change (32 - 0) with 32.
  change (48 - 32) with 16.
  replace (take 16 (drop 32 salt)) with (replicate 16 x00).
  2:{ subst salt. by rewrite make_salt_tail. }
  destruct (scrypt_Key password (take 32 salt) 32768 8 1 32%Z) as [key| |] eqn:H2;
    [|done..]. rewrite bind_Ret.
  destruct (reslice key 0 16) as [klo| |] eqn:H3; [|done..]. rewrite bind_Ret.
  destruct (aes_NewCipher klo) as [blk| |] eqn:H4; [|done..].
  rewrite !bind_Ret. rewrite decide_True by done. rewrite bind_Ret.
  destruct (reslice key 16 32) as [khi| |] eqn:H6; [|done..]. rewrite bind_Ret.
  intros [= <-]. by exists key, klo, blk, khi.
Qed.

(** X5. Of the 48-byte salt a successful [Encrypt] stores, only the first
    32 bytes come from the random source; the last 16, which are the IV of
    the key stream, are always zero.  The call consumes exactly one read of
    32 bytes from the random source. *)
Theorem Encrypt_salt_shape k password g k' g' :
  KeyPairInfo_Encrypt k password g = (Nil, k', g') →
  g' = (frand_Read g 32).2 ∧
  ∃ salt, Salt k' = EncodeBase58 salt ∧ length salt = 48 ∧
          drop 32 salt = replicate 16 x00 ∧
          (length (frand_Read g 32).1 = 32 → take 32 salt = (frand_Read g 32).1).
Proof.
  unfold KeyPairInfo_Encrypt.
  destruct (KeyPairInfo_IsEncrypted k); [done|].
  destruct (frand_Read g 32) as [rnd g2]. cbn [fst snd].
  destruct (Encrypt_body k password rnd) as [k1| |] eqn:Hb; cbn [finish]; [|done..].
  intros [= <- <-]. split; [done|].
  apply Encrypt_body_Ret_full in Hb as (key & klo & blk & khi & _ & _ & _ & _ & ->).
  eexists. split; [done|]. split_and!.
  - apply make_salt_length.
  - apply make_salt_tail.
  - apply make_salt_head.
Qed.

(** X6. The public key a new record shows is the one [ToKeyPair] rebuilds:
    for a record [NewKeyPairInfo] returned, [ToKeyPair] returns the key pair
    generated from the record's [ID], and [PubKey] is the encoding of the
    marshalled public key of that pair. *)
Theorem NewKeyPairInfo_ToKeyPair id rawKey keyType k :
  NewKeyPairInfo id rawKey keyType = Ret k →
  KeyPairInfo_ToKeyPair k = Ret (NewKeyPair id) ∧
  ∃ pubb, MarshalBinary (NewKeyPair id).2 = Ret pubb ∧ PubKey k = EncodeBase58 pubb.
Proof.
  unfold NewKeyPairInfo, KeyPairInfo_ToKeyPair.
  case_bool_decide as Hr; [done|].
  destruct (NewKeyPair id) as [priv pub] eqn:Hkp. cbn [snd].
  destruct (MarshalBinary pub) as [pubb| |] eqn:Hm; [|done..].
  rewrite bind_Ret. intros [= <-]. cbn [RawKey ID PubKey].
  rewrite bool_decide_eq_false_2 by done. rewrite Hkp. split; [done|].
  by exists pubb.
Qed.

(** X7. After a successful [Encrypt] the record can no longer be turned
    into a key pair: [ToKeyPair] returns the error "empty keypair". *)
Theorem ToKeyPair_after_Encrypt k password g k' g' :
  KeyPairInfo_Encrypt k password g = (Nil, k', g') →
  KeyPairInfo_ToKeyPair k' = Err "empty keypair".
Proof.
  intros He. pose proof (Encrypt_cases k password g) as Hc. rewrite He in Hc.
  destruct Hc as [[? _]|(_ & _ & salt & mac & _ & ->)]; [done|].
  unfold KeyPairInfo_ToKeyPair. cbn [RawKey]. by rewrite bool_decide_eq_true_2.
Qed.

(** The body of [Decrypt] on a record whose MAC fits. *)
Lemma Decrypt_body_mac_ok k password key blk :
  48 ≤ length (elems (DecodeBase58 (Salt k))) →
  scrypt_Key password (take 32 (elems (DecodeBase58 (Salt k)))) 32768 8 1 32%Z
    = Ret key →
  length (elems key) = 32 →
  aes_NewCipher (take 16 (elems key)) = Ret blk →
  Sha3 (drop 16 (elems key) ++ elems (DecodeBase58 (EncryptedKey k)))
    = elems (DecodeBase58 (Mac k)) →
  Decrypt_body k password =
    Ret {| ID := ID k;
           RawKey := EncodeBase58
             (XORKeyStream blk (take 16 (drop 32 (elems (DecodeBase58 (Salt k)))))
                (elems (DecodeBase58 (EncryptedKey k))));
           KeyType := KeyType k; PubKey := PubKey k; Salt := Salt k;
           EncryptedKey := EncryptedKey k; Mac := Mac k |}.
Proof.
  intros Hsalt Hkey Hlen Hblk Hmac.
  unfold Decrypt_body, cipher_NewCTR, bytes_Equal. cbv zeta.
  rewrite (reslice_within _ 0 32) by lia. rewrite bind_Ret.
  rewrite drop_0, Nat.sub_0_r, Hkey, bind_Ret.
  rewrite (reslice_within key 0 16) by lia. rewrite bind_Ret.
  rewrite drop_0, Nat.sub_0_r, Hblk, bind_Ret.
  rewrite (reslice_within _ 32 48) by lia. rewrite bind_Ret.
  change (48 - 32) with 16.
  rewrite decide_True by (rewrite length_take, length_drop; unfold aes_BlockSize; lia).
  rewrite bind_Ret, (reslice_within key 16 32) by lia. rewrite bind_Ret.
  change (32 - 16) with 16.
  rewrite (take_ge (drop 16 (elems key))) by (rewrite length_drop; lia).
  by rewrite bool_decide_eq_true_2.
Qed.

(** X8. The salt and the MAC a successful [Encrypt] stores fit the
    ciphertext it computed: with base58 decoding inverting encoding, the
    key stream an involution and [scrypt.Key] returning 32 bytes, there is a
    ciphertext which, once its encoding is put in [EncryptedKey], makes
    [Decrypt] with the same password return [nil] and store the encoding of
    the original key bytes. *)
Theorem Encrypt_salt_and_mac_fit k password g k1 g1 :
  base58_round_trip → stream_involutive → scrypt_key_length →
  KeyPairInfo_Encrypt k password g = (Nil, k1, g1) →
  ∃ ct,
    KeyPairInfo_Decrypt
      {| ID := ID k1; RawKey := RawKey k1; KeyType := KeyType k1; PubKey := PubKey k1;
         Salt := Salt k1; EncryptedKey := EncodeBase58 ct; Mac := Mac k1 |} password
    = (Nil,
       {| ID := ID k; RawKey := EncodeBase58 (elems (DecodeBase58 (RawKey k)));
          KeyType := KeyType k; PubKey := PubKey k;
          Salt := Salt k1; EncryptedKey := EncodeBase58 ct; Mac := Mac k1 |}).
Proof.
  intros Hrt Hinv Hsl. unfold KeyPairInfo_Encrypt.
  destruct (KeyPairInfo_IsEncrypted k); [done|].
  destruct (frand_Read g 32) as [rnd g2].
  destruct (Encrypt_body k password rnd) as [k2| |] eqn:Hb; cbn [finish]; [|done..].
  intros [= <- <-].
  apply Encrypt_body_Ret_full in Hb
    as (key & klo & blk & khi & Hkey & Hlo & Hblk & Hhi & ->).
  pose proof (Hsl _ _ _ Hkey) as Hlen.
  rewrite reslice_within in Hlo by lia. rewrite reslice_within in Hhi by lia.
  injection Hlo as <-. injection Hhi as <-.
  rewrite drop_0 in Hblk. change (16 - 0) with 16 in Hblk.
  change (32 - 16) with 16.
  rewrite (take_ge (drop 16 (elems key))) by (rewrite length_drop; lia).
  set (salt := list_inserts 0 (take 32 rnd) (elems (make 48))) in *.
  set (pt := elems (DecodeBase58 (RawKey k))).
  exists (XORKeyStream blk (replicate 16 x00) pt). cbn [ID RawKey KeyType PubKey Salt Mac].
  rewrite Decrypt_unfold by (apply IsEncrypted_true; by left).
  rewrite (Decrypt_body_mac_ok _ password key blk);
    cbn [ID RawKey KeyType PubKey Salt EncryptedKey Mac finish].
  - rewrite !Hrt.
    replace (take 16 (drop 32 salt)) with (replicate 16 x00)
      by (subst salt; by rewrite make_salt_tail).
    by rewrite Hinv.
  - rewrite Hrt. subst salt. by rewrite make_salt_length.
  - rewrite Hrt. exact Hkey.
  - done.
  - done.
  - by rewrite !Hrt.
Qed.

(** X27. Where the errors come from: an error [Encrypt] returns is its own
    "already encrypted" or one [scrypt.Key] or [aes.NewCipher] returned; an
    error [Decrypt] returns is its own "not encrypted" or "wrong password"
    or one of those two packages'.  Neither method has an error for a
    malformed record or an empty password. *)
Theorem errors_from_guards_or_imports k password g msg :
  ((KeyPairInfo_Encrypt k password g).1.1 = Error msg →
     msg = "already encrypted" ∨
     (∃ salt, scrypt_Key password salt 32768 8 1 32%Z = Err msg) ∨
     (∃ key, aes_NewCipher key = Err msg)) ∧
  ((KeyPairInfo_Decrypt k password).1 = Error msg →
     msg = "not encrypted" ∨ msg = "wrong password" ∨
     (∃ salt, scrypt_Key password salt 32768 8 1 32%Z = Err msg) ∨
     (∃ key, aes_NewCipher key = Err msg)).
Proof.
  split.
  - unfold KeyPairInfo_Encrypt.
    destruct (KeyPairInfo_IsEncrypted k); [intros [= <-]; by left|].
    destruct (frand_Read g 32) as [rnd g1]. cbn [fst].
    unfold Encrypt_body, cipher_NewCTR, reslice. cbv zeta.
    repeat (match goal with
            | |- context [decide ?P] => destruct (decide P)
            | |- context [scrypt_Key ?p ?s ?n ?r ?q ?l] =>
                destruct (scrypt_Key p s n r q l) eqn:?
            | |- context [aes_NewCipher ?c] => destruct (aes_NewCipher c) eqn:?
            end; rewrite ?bind_Ret, ?bind_Err, ?bind_Crash; cbn [finish fst];
            try done);
      intros [= <-]; eauto 6.
  - destruct (KeyPairInfo_Decrypt k password) as [o k'] eqn:Hd. cbn [fst].
    intros ->. by eapply Decrypt_error_origin.
Qed.

(** With [scrypt.Key] and [aes.NewCipher] behaving as in the real packages,
    [Encrypt] on a plaintext record returns [nil]. *)
Lemma Encrypt_plaintext_Nil k password g :
  scrypt_returns_key → aes_accepts_16 →
  KeyPairInfo_IsEncrypted k = false →
  ∃ k1 g1, KeyPairInfo_Encrypt k password g = (Nil, k1, g1).
Proof.
  intros Hs Ha Hk. rewrite Encrypt_unfold by done.
  destruct (Encrypt_body_succeeds k password (frand_Read g 32).1 Hs Ha) as [k1 Hb].
  rewrite Hb. cbn [finish]. by eexists _, _.
Qed.

End KeyPairMore.

(** * Further properties of the accounts *)

Section AccountMore.
Context `{Imports}.

Lemma visits_elem a vis l p :
  visits a vis → (l, p) ∈ vis ↔ Keypairs a !! l = Some p.
Proof. unfold visits. intros ->. apply elem_of_map_to_list. Qed.

(** The loop of [IsEncrypted] over allocated records: it returns, and it
    returns [true] exactly when one of the visited records is encrypted. *)
Lemma AccountInfo_IsEncrypted_loop (h : heap) (vis : list (string * ptr)) :
  (∀ e, e ∈ vis → is_Some (h !! e.2)) →
  ∃ b, AccountInfo_IsEncrypted h vis = Ret b ∧
       (b = true ↔ ∃ e kp, e ∈ vis ∧ h !! e.2 = Some kp ∧
                           KeyPairInfo_IsEncrypted kp = true).
Proof.
  induction vis as [|[l p] vis IH]; intros Hall.
  - exists false. split; [done|]. split; [done|].
    intros (e & _ & Hin & _). by apply elem_of_nil in Hin.
  - cbn [AccountInfo_IsEncrypted].
    destruct (Hall (l, p)) as [kp Hkp]; [left|]. cbn [snd] in Hkp. rewrite Hkp.
    destruct (KeyPairInfo_IsEncrypted kp) eqn:Hk.
    + exists true. split; [done|]. split; [|done]. intros _.
      exists (l, p), kp. split_and!; [left|done..].
    + destruct IH as (b & Hb & Hiff); [intros e He; apply Hall; by right|].
      exists b. split; [done|]. rewrite Hiff. split.
      * intros (e & kp' & Hin & ?). exists e, kp'. split; [by right|done].
      * intros (e & kp' & Hin & Hp & Hk').
        apply elem_of_cons in Hin as [->|Hin]; [|by eauto].
        cbn [snd] in Hp. congruence.
Qed.

(** On an account of allocated plaintext records the loop of [IsEncrypted]
    returns [false]. *)
Lemma AccountInfo_IsEncrypted_plaintext a (h : heap) vis :
  visits a vis →
  (∀ l p, Keypairs a !! l = Some p →
     ∃ kp, h !! p = Some kp ∧ KeyPairInfo_IsEncrypted kp = false) →
  AccountInfo_IsEncrypted h vis = Ret false.
Proof.
  intros Hv Hmem.
  destruct (AccountInfo_IsEncrypted_loop h vis) as (b & Hb & Hiff).
  { intros [l p] Hin. apply (visits_elem a) in Hin; [|done]. cbn [snd].
    destruct (Hmem l p Hin) as (kp & -> & _). by eexists. }
  destruct b; [|done].
  destruct (proj1 Hiff eq_refl) as ([l p] & kp & Hin & Hp & Hk).
  apply (visits_elem a) in Hin; [|done].
  destruct (Hmem l p Hin) as (kp' & Hp' & Hk'). cbn [snd] in Hp. congruence.
Qed.

(** X9. On an account whose members are all allocated, [IsEncrypted]
    returns without panic and its answer does not depend on the order in
    which the map is visited: it is [true] exactly when some member is
    encrypted. *)
Theorem AccountInfo_IsEncrypted_any_order a (h : heap) vis :
  visits a vis →
  (∀ l p, Keypairs a !! l = Some p → is_Some (h !! p)) →
  ∃ b, AccountInfo_IsEncrypted h vis = Ret b ∧
       (b = true ↔ ∃ l p kp, Keypairs a !! l = Some p ∧ h !! p = Some kp ∧
                             KeyPairInfo_IsEncrypted kp = true).
Proof.
  intros Hvis Hall.
  destruct (AccountInfo_IsEncrypted_loop h vis) as (b & Hb & Hiff).
  { intros [l p] Hin. apply (visits_elem a) in Hin; [|done]. by eapply Hall. }
  exists b. split; [done|]. rewrite Hiff. split.
  - intros ([l p] & kp & Hin & Hp & Hk). exists l, p, kp.
    by apply (visits_elem a) in Hin.
  - intros (l & p & kp & Hl & Hp & Hk). exists (l, p), kp.
    split; [by apply (visits_elem a)|done].
Qed.

(** What a loop of [Encrypt] that returned [nil] has done: every visited
    record was plaintext and is now cleared of its raw key, no pointer was
    visited twice, and the rest of the heap is as before. *)
Lemma Encrypt_loop_Nil (h : heap) vis password g h' g' :
  Encrypt_loop h vis password g = (Nil, h', g') →
  NoDup vis.*2 ∧
  (∀ e, e ∈ vis → ∃ kp kp',
     h !! e.2 = Some kp ∧ KeyPairInfo_IsEncrypted kp = false ∧
     h' !! e.2 = Some kp' ∧ RawKey kp' = EmptyString ∧ ID kp' = ID kp) ∧
  (∀ p, p ∉ vis.*2 → h' !! p = h !! p).
Proof.
  revert h g. induction vis as [|[l p] vis IH]; intros h g Hloop.
  - cbn in Hloop. injection Hloop as <- <-. split_and!; [constructor| |done].
    intros e Hin. by apply elem_of_nil in Hin.
  - cbn [Encrypt_loop] in Hloop.
    destruct (h !! p) as [kp|] eqn:Hp; [|done].
    pose proof (Encrypt_cases kp password g) as Hc.
    destruct (KeyPairInfo_Encrypt kp password g) as [[o kp1] g1].
    destruct Hc as [[Ho _]|(-> & Hk & salt & mac & _ & Hkp1)];
      [by destruct o|].
    apply IH in Hloop as (Hnd & Hvis & Hframe).
    assert (Hfresh : p ∉ vis.*2).
    { intros Hin. apply list_elem_of_fmap in Hin as ([l2 p2] & -> & Hin).
      destruct (Hvis _ Hin) as (kp2 & _ & Hp2 & Hk2 & _). cbn [snd] in Hp2.
      rewrite lookup_insert_eq in Hp2. injection Hp2 as <-.
      apply IsEncrypted_false in Hk2 as [Hr _]. by rewrite Hkp1 in Hr. }
    split_and!.
    + rewrite fmap_cons. cbn [snd]. by constructor.
    + intros e [->|Hin]%elem_of_cons.
      * exists kp, kp1. cbn [snd]. split_and!; [done..| | |].
        -- by rewrite Hframe, lookup_insert_eq.
        -- by rewrite Hkp1.
        -- by rewrite Hkp1.
      * destruct (Hvis _ Hin) as (kp2 & kp2' & Hp2 & ? & ? & ? & ?).
        exists kp2, kp2'. split_and!; [|done..].
        rewrite lookup_insert_ne in Hp2; [done|].
        intros ->. apply Hfresh. apply list_elem_of_fmap. by exists e.
    + intros q Hq. rewrite fmap_cons in Hq. cbn [snd] in Hq.
      apply not_elem_of_cons in Hq as [Hqp Hq].
      rewrite Hframe by done. by rewrite lookup_insert_ne.
Qed.

(** X10. What [Encrypt] has done when it returns [nil]: every member of the
    account was a plaintext record and now has an empty [RawKey] (and the
    [ID] it had), no record is shared by two labels, and records that are
    not members are untouched. *)
Theorem AccountInfo_Encrypt_Nil a (h : heap) vis1 vis2 password g h' g' :
  visits a vis2 →
  AccountInfo_Encrypt h vis1 vis2 password g = (Nil, h', g') →
  (∀ l p, Keypairs a !! l = Some p → ∃ kp kp',
     h !! p = Some kp ∧ KeyPairInfo_IsEncrypted kp = false ∧
     h' !! p = Some kp' ∧ RawKey kp' = EmptyString ∧ ID kp' = ID kp) ∧
  (∀ l1 l2 p, Keypairs a !! l1 = Some p → Keypairs a !! l2 = Some p → l1 = l2) ∧
  (∀ p, (∀ l, Keypairs a !! l ≠ Some p) → h' !! p = h !! p).
Proof.
  intros Hvis. unfold AccountInfo_Encrypt.
  destruct (AccountInfo_IsEncrypted h vis1) as [[|]| |]; [done| |done..].
  intros (Hnd & Hmem & Hframe)%Encrypt_loop_Nil. split_and!.
  - intros l p Hl. apply (visits_elem a vis2) in Hl; [|done].
    apply (Hmem (l, p) Hl).
  - intros l1 l2 p Hl1 Hl2.
    apply (visits_elem a vis2) in Hl1; [|done].
    apply (visits_elem a vis2) in Hl2; [|done].
    apply list_elem_of_lookup in Hl1 as [i Hi], Hl2 as [j Hj].
    assert (i = j) as ->; [|congruence].
    eapply NoDup_lookup; [exact Hnd| |];
      rewrite list_lookup_fmap; [by rewrite Hi|by rewrite Hj].
  - intros p Hp. apply Hframe. intros ([l q] & -> & Hin)%list_elem_of_fmap.
    apply (visits_elem a vis2) in Hin; [|done]. by eapply Hp.
Qed.

(** With [scrypt.Key] and [aes.NewCipher] behaving as in the real packages,
    the loop of [Encrypt] over allocated records either returns [nil] or
    stops with "already encrypted" at a record that is encrypted in the heap
    it leaves. *)
Lemma Encrypt_loop_outcome (h : heap) vis password g :
  scrypt_returns_key → aes_accepts_16 →
  (∀ e, e ∈ vis → is_Some (h !! e.2)) →
  (Encrypt_loop h vis password g).1.1 = Nil ∨
  (Encrypt_loop h vis password g).1.1 = Error "already encrypted" ∧
  ∃ e kp, e ∈ vis ∧ (Encrypt_loop h vis password g).1.2 !! e.2 = Some kp ∧
          KeyPairInfo_IsEncrypted kp = true.
Proof.
  intros Hs Ha. revert h g. induction vis as [|[l p] vis IH]; intros h g Hall.
  - by left.
  - cbn [Encrypt_loop].
    destruct (Hall (l, p)) as [kp Hp]; [left|]. cbn [snd] in Hp. rewrite Hp.
    destruct (KeyPairInfo_IsEncrypted kp) eqn:Hk.
    + unfold KeyPairInfo_Encrypt. rewrite Hk. right. split; [done|].
      exists (l, p), kp. cbn. split_and!; [left| |done]. by rewrite lookup_insert_eq.
    + destruct (Encrypt_plaintext_Nil kp password g Hs Ha Hk) as (kp1 & g1 & ->).
      destruct (IH (<[p:=kp1]> h) g1) as [HNil|(HErr & e & kq & Hin & Hq & Hkq)].
      * intros e He. destruct (decide (e.2 = p)) as [->|Hne].
        -- rewrite lookup_insert_eq. by eexists.
        -- rewrite lookup_insert_ne by done. apply Hall. by right.
      * by left.
      * right. split; [done|]. exists e, kq. split; [by right|done].
Qed.

(** X11. With [scrypt.Key] and [aes.NewCipher] behaving as in the real
    packages, on an account whose members are allocated plaintext records,
    no record being shared by two labels, [Encrypt] returns [nil], in
    whatever order the map is visited.  This includes the empty account. *)
Theorem AccountInfo_Encrypt_succeeds a (h : heap) vis1 vis2 password g :
  scrypt_returns_key → aes_accepts_16 →
  visits a vis1 → visits a vis2 →
  (∀ l p, Keypairs a !! l = Some p →
     ∃ kp, h !! p = Some kp ∧ KeyPairInfo_IsEncrypted kp = false) →
  (∀ l1 l2 p, Keypairs a !! l1 = Some p → Keypairs a !! l2 = Some p → l1 = l2) →
  ∃ h' g', AccountInfo_Encrypt h vis1 vis2 password g = (Nil, h', g').
Proof.
  intros Hs Ha Hv1 Hv2 Hmem Hinj. unfold AccountInfo_Encrypt.
  rewrite (AccountInfo_IsEncrypted_plaintext a h vis1 Hv1 Hmem).
  assert (Hall2 : ∀ e, e ∈ vis2 → is_Some (h !! e.2)).
  { intros [l p] Hin. apply (visits_elem a) in Hin; [|done]. cbn [snd].
    destruct (Hmem l p Hin) as (kp & -> & _). by eexists. }
  pose proof (Encrypt_loop_outcome h vis2 password g Hs Ha Hall2) as Hout.
  destruct (Encrypt_loop h vis2 password g) as [[o h'] g'] eqn:Hloop. cbn in Hout.
  destruct Hout as [->|(-> & e & kq & Hin & Hq & Hkq)]; [by eauto|].
  exfalso. clear Hall2.
  (* the loop cannot meet an encrypted record: all start plaintext and no
     pointer is visited twice *)
  assert (Hnd : NoDup vis2.*2).
  { apply NoDup_fmap_2_strong.
    - intros [l1 p1] [l2 p2] H1 H2 Heq. cbn in Heq. subst p2.
      apply (visits_elem a) in H1; [|done]. apply (visits_elem a) in H2; [|done].
      by rewrite (Hinj l1 l2 p1 H1 H2).
    - unfold visits in Hv2. rewrite Hv2. apply NoDup_map_to_list. }
  assert (Hplain : ∀ e, e ∈ vis2 → ∃ kp, h !! e.2 = Some kp ∧
                                          KeyPairInfo_IsEncrypted kp = false).
  { intros [l p] Hin'. apply (visits_elem a) in Hin'; [|done]. by eapply Hmem. }
  clear Hv1 Hv2 Hmem Hinj Hin Hq Hkq e kq.
  revert h g Hloop Hplain. induction vis2 as [|[l p] vis IH]; intros h g Hloop Hplain.
  - done.
  - cbn [Encrypt_loop] in Hloop.
    destruct (Hplain (l, p)) as (kp & Hp & Hk); [left|]. cbn [snd] in Hp.
    rewrite Hp in Hloop.
    destruct (Encrypt_plaintext_Nil kp password g Hs Ha Hk) as (kp1 & g1 & He).
    rewrite He in Hloop. rewrite fmap_cons in Hnd. cbn [snd] in Hnd.
    apply NoDup_cons in Hnd as [Hfresh Hnd].
    apply (IH Hnd _ _ Hloop). intros e He'.
    destruct (Hplain e) as (kq & Hq & Hkq); [by right|].
    exists kq. split; [|done]. rewrite lookup_insert_ne; [done|].
    intros ->. apply Hfresh. apply list_elem_of_fmap. by exists e.
Qed.

(** X12. With [scrypt.Key] and [aes.NewCipher] behaving as in the real
    packages, on an account of allocated plaintext records in which two
    labels share one record, [Encrypt] fails in every visiting order: it
    returns the error "already encrypted" of the record method, not [nil],
    and it leaves a member of the account encrypted. *)
Theorem AccountInfo_Encrypt_shared_record a (h : heap) vis1 vis2 password g l1 l2 p :
  scrypt_returns_key → aes_accepts_16 →
  visits a vis1 → visits a vis2 →
  (∀ l p, Keypairs a !! l = Some p →
     ∃ kp, h !! p = Some kp ∧ KeyPairInfo_IsEncrypted kp = false) →
  l1 ≠ l2 → Keypairs a !! l1 = Some p → Keypairs a !! l2 = Some p →
  (AccountInfo_Encrypt h vis1 vis2 password g).1.1 = Error "already encrypted" ∧
  ∃ l q kq, Keypairs a !! l = Some q ∧
            (AccountInfo_Encrypt h vis1 vis2 password g).1.2 !! q = Some kq ∧
            KeyPairInfo_IsEncrypted kq = true.
Proof.
  intros Hs Ha Hv1 Hv2 Hmem Hne Hl1 Hl2.
  unfold AccountInfo_Encrypt.
  rewrite (AccountInfo_IsEncrypted_plaintext a h vis1 Hv1 Hmem).
  assert (Hall2 : ∀ e, e ∈ vis2 → is_Some (h !! e.2)).
  { intros [l q] Hin. apply (visits_elem a) in Hin; [|done]. cbn [snd].
    destruct (Hmem l q Hin) as (kp & -> & _). by eexists. }
  pose proof (Encrypt_loop_outcome h vis2 password g Hs Ha Hall2) as Hout.
  destruct (Encrypt_loop h vis2 password g) as [[o h'] g'] eqn:Hloop. cbn in *.
  destruct Hout as [->|(-> & [l q] & kq & Hin & Hq & Hkq)].
  - apply Encrypt_loop_Nil in Hloop as (Hnd & _ & _).
    apply (visits_elem a vis2) in Hl1; [|done].
    apply (visits_elem a vis2) in Hl2; [|done].
    apply list_elem_of_lookup in Hl1 as [i Hi], Hl2 as [j Hj].
    assert (i = j) as ->; [|congruence].
    eapply NoDup_lookup; [exact Hnd| |];
      rewrite list_lookup_fmap; [by rewrite Hi|by rewrite Hj].
  - split; [done|]. exists l, q, kq. split; [|done].
    by apply (visits_elem a) in Hin.
Qed.

Lemma Decrypt_loop_plaintext (h : heap) vis password e kp :
  e ∈ vis → h !! e.2 = Some kp → KeyPairInfo_IsEncrypted kp = false →
  (Decrypt_loop h vis password).1 ≠ Nil.
Proof.
  revert h. induction vis as [|[l p] vis IH]; intros h Hin Hp Hk.
  - by apply elem_of_nil in Hin.
  - cbn [Decrypt_loop]. destruct (h !! p) as [kp1|] eqn:Hp1; [|done].
    pose proof (Decrypt_cases kp1 password) as Hc.
    destruct (KeyPairInfo_Decrypt kp1 password) as [o kp2].
    destruct Hc as [[Ho _]|(-> & Hk1 & _)]; [by destruct o|].
    assert (Hne : p ≠ e.2) by (intros ->; congruence).
    apply IH.
    + apply elem_of_cons in Hin as [->|Hin]; [done|done].
    + by rewrite lookup_insert_ne.
    + done.
Qed.

(** X13. [Decrypt] never returns [nil] on an account that has a plaintext
    member, in whatever order the map is visited: members in mixed state
    make the call fail (possibly after other members were decrypted). *)
Theorem AccountInfo_Decrypt_plaintext_member a (h : heap) vis1 vis2 password l p kp :
  visits a vis2 →
  Keypairs a !! l = Some p → h !! p = Some kp →
  KeyPairInfo_IsEncrypted kp = false →
  (AccountInfo_Decrypt h vis1 vis2 password).1 ≠ Nil.
Proof.
  intros Hv Hl Hp Hk. unfold AccountInfo_Decrypt.
  destruct (AccountInfo_IsEncrypted h vis1) as [[|]| |]; [|done..].
  apply (Decrypt_loop_plaintext h vis2 password (l, p) kp); [|done..].
  by apply (visits_elem a).
Qed.

(** X14. On an account whose members are all allocated plaintext records,
    [Decrypt] returns the error "not encrypted" and leaves every record as
    it was, in whatever order the map is visited. *)
Theorem AccountInfo_Decrypt_all_plaintext a (h : heap) vis1 vis2 password :
  visits a vis1 →
  (∀ l p, Keypairs a !! l = Some p →
     ∃ kp, h !! p = Some kp ∧ KeyPairInfo_IsEncrypted kp = false) →
  AccountInfo_Decrypt h vis1 vis2 password = (Error "not encrypted", h).
Proof.
  intros Hv Hmem. unfold AccountInfo_Decrypt.
  by rewrite (AccountInfo_IsEncrypted_plaintext a h vis1 Hv Hmem).
Qed.

Lemma Encrypt_loop_frame (h : heap) vis password g p :
  match h !! p with
  | None => (Encrypt_loop h vis password g).1.2 !! p = None
  | Some kp => ∃ kp', (Encrypt_loop h vis password g).1.2 !! p = Some kp' ∧
      ID kp' = ID kp ∧ KeyType kp' = KeyType kp ∧ PubKey kp' = PubKey kp ∧
      EncryptedKey kp' = EncryptedKey kp
  end.
Proof.
  revert h g. induction vis as [|[l q] vis IH]; intros h g.
  - cbn. destruct (h !! p); [by eexists|done].
  - cbn [Encrypt_loop]. destruct (h !! q) as [kq|] eqn:Hq.
    2:{ cbn. destruct (h !! p); [by eexists|done]. }
    pose proof (Encrypt_cases kq password g) as Hc.
    destruct (KeyPairInfo_Encrypt kq password g) as [[o kq1] g1].
    assert (Hstep : match h !! p with
                    | None => <[q:=kq1]> h !! p = None
                    | Some kp => ∃ kp', <[q:=kq1]> h !! p = Some kp' ∧
                        ID kp' = ID kp ∧ KeyType kp' = KeyType kp ∧
                        PubKey kp' = PubKey kp ∧ EncryptedKey kp' = EncryptedKey kp
                    end).
    { destruct (decide (q = p)) as [->|Hne].
      - rewrite Hq, lookup_insert_eq. exists kq1. split; [done|].
        by destruct Hc as [[_ ->]|(_ & _ & salt & mac & _ & ->)].
      - rewrite lookup_insert_ne by done. destruct (h !! p); [by eexists|done]. }
    assert (Hrest := IH (<[q:=kq1]> h) g1).
    destruct o; [|done..].
    destruct (h !! p) as [kp|].
    + destruct Hstep as (kp1 & Hp1 & ? & ? & ? & ?). rewrite Hp1 in Hrest.
      destruct Hrest as (kp2 & ? & ? & ? & ? & ?). exists kp2.
      split_and!; [done|congruence..].
    + by rewrite Hstep in Hrest.
Qed.

Lemma Decrypt_loop_frame (h : heap) vis password p :
  match h !! p with
  | None => (Decrypt_loop h vis password).2 !! p = None
  | Some kp => ∃ kp', (Decrypt_loop h vis password).2 !! p = Some kp' ∧
      ID kp' = ID kp ∧ KeyType kp' = KeyType kp ∧ PubKey kp' = PubKey kp ∧
      EncryptedKey kp' = EncryptedKey kp ∧ Salt kp' = Salt kp ∧ Mac kp' = Mac kp
  end.
Proof.
  revert h. induction vis as [|[l q] vis IH]; intros h.
  - cbn. destruct (h !! p); [by eexists|done].
  - cbn [Decrypt_loop]. destruct (h !! q) as [kq|] eqn:Hq.
    2:{ cbn. destruct (h !! p); [by eexists|done]. }
    pose proof (Decrypt_cases kq password) as Hc.
    destruct (KeyPairInfo_Decrypt kq password) as [o kq1].
    assert (Hstep : match h !! p with
                    | None => <[q:=kq1]> h !! p = None
                    | Some kp => ∃ kp', <[q:=kq1]> h !! p = Some kp' ∧
                        ID kp' = ID kp ∧ KeyType kp' = KeyType kp ∧
                        PubKey kp' = PubKey kp ∧ EncryptedKey kp' = EncryptedKey kp ∧
                        Salt kp' = Salt kp ∧ Mac kp' = Mac kp
                    end).
    { destruct (decide (q = p)) as [->|Hne].
      - rewrite Hq, lookup_insert_eq. exists kq1. split; [done|].
        by destruct Hc as [[_ ->]|(_ & _ & b & iv & ->)].
      - rewrite lookup_insert_ne by done. destruct (h !! p); [by eexists|done]. }
    assert (Hrest := IH (<[q:=kq1]> h)).
    destruct o; [|done..].
    destruct (h !! p) as [kp|].
    + destruct Hstep as (kp1 & Hp1 & ? & ? & ? & ? & ? & ?). rewrite Hp1 in Hrest.
      destruct Hrest as (kp2 & ? & ? & ? & ? & ? & ? & ?). exists kp2.
      split_and!; [done|congruence..].
    + by rewrite Hstep in Hrest.
Qed.

(** X15. Whatever they return, [Encrypt] and [Decrypt] on an account
    neither allocate nor drop records, and they never change the [ID],
    [KeyType], [PubKey] or [EncryptedKey] of any record in the heap;
    [Decrypt] also never changes a [Salt] or a [Mac]. *)
Theorem AccountInfo_records_frame (h : heap) vis1 vis2 password g p :
  ((AccountInfo_Encrypt h vis1 vis2 password g).1.2 !! p = None ↔ h !! p = None) ∧
  ((AccountInfo_Decrypt h vis1 vis2 password).2 !! p = None ↔ h !! p = None) ∧
  (∀ kp, h !! p = Some kp →
     (∃ kp', (AccountInfo_Encrypt h vis1 vis2 password g).1.2 !! p = Some kp' ∧
        ID kp' = ID kp ∧ KeyType kp' = KeyType kp ∧ PubKey kp' = PubKey kp ∧
        EncryptedKey kp' = EncryptedKey kp) ∧
     (∃ kp', (AccountInfo_Decrypt h vis1 vis2 password).2 !! p = Some kp' ∧
        ID kp' = ID kp ∧ KeyType kp' = KeyType kp ∧ PubKey kp' = PubKey kp ∧
        EncryptedKey kp' = EncryptedKey kp ∧ Salt kp' = Salt kp ∧ Mac kp' = Mac kp)).
Proof.
  pose proof (Encrypt_loop_frame h vis2 password g p) as He.
  pose proof (Decrypt_loop_frame h vis2 password p) as Hd.
  unfold AccountInfo_Encrypt, AccountInfo_Decrypt.
  destruct (AccountInfo_IsEncrypted h vis1) as [[|]| |]; cbn [fst snd];
    destruct (h !! p) as [kp|] eqn:Hp;
    repeat match goal with
           | H : ∃ _, _ |- _ => destruct H as (? & ? & ?)
           end;
    (split_and!; [split; congruence..|]);
    intros kp0 [= <-]; split; eauto 10.
Qed.

(** X16. After [Encrypt] returned [nil] on an account, no permission of the
    account gives a key pair any more: [GetKeyPair] returns "empty keypair"
    for every label of the account, and "invalid permission" followed by
    the label for every other one. *)
Theorem GetKeyPair_after_Encrypt a (h : heap) vis1 vis2 password g h' g' perm :
  visits a vis2 →
  AccountInfo_Encrypt h vis1 vis2 password g = (Nil, h', g') →
  AccountInfo_GetKeyPair a h' perm =
    if Keypairs a !! perm is Some _ then Err "empty keypair"
    else Err ("invalid permission " +:+ perm).
Proof.
  intros Hv He. unfold AccountInfo_GetKeyPair.
  destruct (Keypairs a !! perm) as [p|] eqn:Hperm; [|done].
  unfold AccountInfo_Encrypt in He.
  destruct (AccountInfo_IsEncrypted h vis1) as [[|]| |]; [done| |done..].
  apply Encrypt_loop_Nil in He as (_ & Hmem & _).
  apply (visits_elem a vis2) in Hperm; [|done].
  destruct (Hmem _ Hperm) as (kp & kp' & _ & _ & Hp' & Hr & _).
  cbn [snd] in Hp'. rewrite Hp'.
  unfold KeyPairInfo_ToKeyPair. by rewrite bool_decide_eq_true_2.
Qed.

End AccountMore.

(** * Further properties of the account store *)

Lemma string_app_inj_r (s1 s2 t : string) : s1 +:+ t = s2 +:+ t → s1 = s2.
Proof.
  revert s2. induction s1 as [|c s1 IH]; intros [|d s2] Heq; [done| | |].
  - apply (f_equal String.length) in Heq.
    rewrite !string_length_app in Heq. cbn in Heq. lia.
  - apply (f_equal String.length) in Heq.
    rewrite !string_length_app in Heq. cbn in Heq. lia.
  - change (String c (s1 +:+ t) = String d (s2 +:+ t)) in Heq.
    injection Heq as -> Heq. f_equal. by apply IH.
Qed.

Lemma backup_file_inj s name t1 t2 :
  backup_file s name t1 = backup_file s name t2 → t1 = t2.
Proof.
  unfold backup_file. intros Heq.
  do 4 apply String.app_inj in Heq. by apply string_app_inj_r in Heq.
Qed.

Section StoreMore.
Context `{Imports}.

(** What [SaveTo] leaves in the store. *)
Lemma SaveTo_cases e (fs : files) a h fileName :
  (∀ path, path ≠ fileName →
     (AccountInfo_SaveTo e fs a h fileName).2 !! path = fs !! path) ∧
  ((AccountInfo_SaveTo e fs a h fileName).1 = Nil →
     ∃ data, json_MarshalIndent a h = Ret data ∧
             (AccountInfo_SaveTo e fs a h fileName).2 = <[fileName := data]> fs).
Proof.
  unfold AccountInfo_SaveTo, os_WriteFile.
  destruct (json_MarshalIndent a h) as [data| |]; cbn; [|done..].
  destruct (write_err e fileName) as [[msg [part|]]|]; cbn; split; try done.
  - intros path Hne. by rewrite lookup_insert_ne.
  - intros path Hne. by rewrite lookup_insert_ne.
  - intros _. by exists data.
Qed.

(** X17. [SaveAccount] touches at most two entries of the store, the
    account's file and its backup name for the current time: every other
    path, the files and backups of other accounts and older backups of this
    one included, holds afterwards what it held before, whatever the call
    returns. *)
Theorem SaveAccount_frame s e (fs : files) a h path :
  path ≠ account_file s (Name a) →
  path ≠ backup_file s (Name a) (now_RFC3339 e) →
  (FileAccountStore_SaveAccount s e fs a h).2 !! path = fs !! path.
Proof.
  intros Hlive Hbackup. unfold FileAccountStore_SaveAccount, os_MkdirAll.
  destruct (mkdir_err e (AccountDir s)); [done|].
  destruct (negb _).
  - destruct (mkdir_err e (AccountDir s +:+ "/backup")); [done|].
    unfold os_Rename.
    destruct (fs !! account_file s (Name a)) as [blob|]; [|done].
    destruct (rename_err e _ _); [done|].
    rewrite (proj1 (SaveTo_cases _ _ _ _ _)) by done.
    rewrite lookup_insert_ne by done. by rewrite lookup_delete_ne.
  - by apply SaveTo_cases.
Qed.

(** X18. Saving an account that has no file yet: when [os.Stat] reports
    that the file does not exist, no backup is made (the backup name keeps
    what it held), and a save that returns [nil] changes the store only by
    putting the marshalled account under the file name. *)
Theorem SaveAccount_first_time s e (fs : files) a h :
  fs !! account_file s (Name a) = None →
  stat_err e (account_file s (Name a)) = None →
  (FileAccountStore_SaveAccount s e fs a h).2
    !! backup_file s (Name a) (now_RFC3339 e)
  = fs !! backup_file s (Name a) (now_RFC3339 e) ∧
  ((FileAccountStore_SaveAccount s e fs a h).1 = Nil →
   ∃ data, json_MarshalIndent a h = Ret data ∧
           (FileAccountStore_SaveAccount s e fs a h).2
             = <[account_file s (Name a) := data]> fs).
Proof.
  intros Hnone Hstat. unfold FileAccountStore_SaveAccount, os_MkdirAll.
  destruct (mkdir_err e (AccountDir s)); [done|].
  unfold os_Stat. rewrite Hstat, Hnone. cbn [os_IsNotExist negb].
  split; [|by apply SaveTo_cases].
  apply SaveTo_cases. intros Heq. by eapply backup_file_fresh.
Qed.

(** X19. When [os.Stat] fails for another reason than the file not
    existing, [SaveAccount] takes the file as present; if there is in fact
    no file, the rename fails, the call returns an error and nothing is
    written. *)
Theorem SaveAccount_stat_error s e (fs : files) a h msg :
  fs !! account_file s (Name a) = None →
  stat_err e (account_file s (Name a)) = Some msg →
  (FileAccountStore_SaveAccount s e fs a h).1 ≠ Nil ∧
  (FileAccountStore_SaveAccount s e fs a h).2 = fs.
Proof.
  intros Hnone Hstat. unfold FileAccountStore_SaveAccount, os_MkdirAll.
  destruct (mkdir_err e (AccountDir s)); [done|].
  unfold os_Stat. rewrite Hstat. cbn [os_IsNotExist negb].
  destruct (mkdir_err e (AccountDir s +:+ "/backup")); [done|].
  unfold os_Rename. by rewrite Hnone.
Qed.

(** What a [SaveAccount] that returned [nil] over an existing file leaves:
    the old blob under the backup name, the new one under the file name. *)
Lemma SaveAccount_overwrite_Nil s e (fs : files) a h old :
  fs !! account_file s (Name a) = Some old →
  (FileAccountStore_SaveAccount s e fs a h).1 = Nil →
  ∃ data, json_MarshalIndent a h = Ret data ∧
    (FileAccountStore_SaveAccount s e fs a h).2
    = <[account_file s (Name a) := data]>
        (<[backup_file s (Name a) (now_RFC3339 e) := old]>
           (delete (account_file s (Name a)) fs)).
Proof.
  intros Hold. unfold FileAccountStore_SaveAccount, os_MkdirAll.
  destruct (mkdir_err e (AccountDir s)); [done|].
  replace (negb (os_IsNotExist (os_Stat e fs (account_file s (Name a))))) with true.
  2:{ unfold os_Stat. destruct (stat_err e _); [done|]. by rewrite Hold. }
  destruct (mkdir_err e (AccountDir s +:+ "/backup")); [done|].
  unfold os_Rename. rewrite Hold.
  destruct (rename_err e _ _); [done|]. apply SaveTo_cases.
Qed.

(** X20. Two saves in a row over an existing file, both returning [nil]:
    the file holds the second blob and the backup of the second save holds
    the first blob.  If the two saves read different time stamps, the
    backup of the first save still holds the blob that was there at the
    start; if they read the same time stamp (the stamp has a resolution of
    one second), the second backup has replaced the first, which no longer
    holds the blob that was there at the start. *)
Theorem SaveAccount_twice s e1 e2 (fs : files) a1 a2 h1 h2 old :
  Name a1 = Name a2 →
  fs !! account_file s (Name a1) = Some old →
  (FileAccountStore_SaveAccount s e1 fs a1 h1).1 = Nil →
  (FileAccountStore_SaveAccount s e2
     (FileAccountStore_SaveAccount s e1 fs a1 h1).2 a2 h2).1 = Nil →
  ∃ data1 data2,
    json_MarshalIndent a1 h1 = Ret data1 ∧ json_MarshalIndent a2 h2 = Ret data2 ∧
    (FileAccountStore_SaveAccount s e2
       (FileAccountStore_SaveAccount s e1 fs a1 h1).2 a2 h2).2
      !! account_file s (Name a1) = Some data2 ∧
    (FileAccountStore_SaveAccount s e2
       (FileAccountStore_SaveAccount s e1 fs a1 h1).2 a2 h2).2
      !! backup_file s (Name a1) (now_RFC3339 e2) = Some data1 ∧
    (FileAccountStore_SaveAccount s e2
       (FileAccountStore_SaveAccount s e1 fs a1 h1).2 a2 h2).2
      !! backup_file s (Name a1) (now_RFC3339 e1)
      = Some (if decide (now_RFC3339 e1 = now_RFC3339 e2) then data1 else old).
Proof.
  intros Hname Hold H1 H2.
  destruct (SaveAccount_overwrite_Nil s e1 fs a1 h1 old Hold H1) as (data1 & Hm1 & Hfs1).
  set (fs1 := (FileAccountStore_SaveAccount s e1 fs a1 h1).2) in *.
  assert (Hlive1 : fs1 !! account_file s (Name a2) = Some data1).
  { rewrite <- Hname, Hfs1. by rewrite lookup_insert_eq. }
  destruct (SaveAccount_overwrite_Nil s e2 fs1 a2 h2 data1 Hlive1 H2)
    as (data2 & Hm2 & Hfs2).
  exists data1, data2. rewrite Hfs2, <- Hname. split_and!; [done..| | |].
  - by rewrite lookup_insert_eq.
  - rewrite lookup_insert_ne by apply backup_file_fresh.
    by rewrite lookup_insert_eq.
  - rewrite lookup_insert_ne by apply backup_file_fresh.
    case_decide as Ht.
    + rewrite Ht. by rewrite lookup_insert_eq.
    + rewrite lookup_insert_ne by (intros Heq%backup_file_inj; done).
      rewrite lookup_delete_ne by (intros Heq; by eapply backup_file_fresh).
      rewrite Hfs1. rewrite lookup_insert_ne by apply backup_file_fresh.
      by rewrite lookup_insert_eq.
Qed.

End StoreMore.

(** * Properties of loading, deleting and listing *)

Lemma new_ptr_fresh (h : heap) : new_ptr h ≠ nil_ptr ∧ h !! new_ptr h = None.
Proof.
  pose proof (is_fresh ({[nil_ptr]} ∪ dom h)) as Hfresh. fold (new_ptr h) in Hfresh.
  split.
  - intros Heq. apply Hfresh. rewrite Heq. set_solver.
  - apply not_elem_of_dom. set_solver.
Qed.

(** What the allocation of the members of a loaded account gives. *)
Lemma alloc_members_spec (h : heap) ms m h' :
  alloc_members h ms = (m, h') →
  h !! nil_ptr = None → NoDup ms.*1 →
  h' !! nil_ptr = None ∧
  (∀ p kp, h !! p = Some kp → h' !! p = Some kp) ∧
  (∀ l o, (l, o) ∈ ms → is_Some (m !! l)) ∧
  (∀ l p, m !! l = Some p →
     ∃ o, (l, o) ∈ ms ∧ h' !! p = o ∧ h !! p = None ∧ (o = None → p = nil_ptr)) ∧
  (∀ l1 l2 p, m !! l1 = Some p → m !! l2 = Some p → p ≠ nil_ptr → l1 = l2).
Proof.
  revert h m h'. induction ms as [|[l o] ms IH]; intros h m h' Halloc Hnil Hnd.
  - cbn in Halloc. injection Halloc as <- <-. split_and!; [done..| | |].
    + intros l o Hin. by apply elem_of_nil in Hin.
    + intros l p Hl. by rewrite lookup_empty in Hl.
    + intros l1 l2 p Hl. by rewrite lookup_empty in Hl.
  - rewrite fmap_cons in Hnd. cbn [fst] in Hnd. apply NoDup_cons in Hnd as [Hl Hnd].
    cbn [alloc_members] in Halloc. destruct o as [kp|].
    + destruct (new_ptr_fresh h) as [Hpn Hph]. set (p := new_ptr h) in *.
      destruct (alloc_members (<[p:=kp]> h) ms) as [m1 h1] eqn:Hrest.
      injection Halloc as <- <-.
      destruct (IH _ _ _ Hrest) as (Hnil1 & Hsub & Hdom & Hmem & Hinj); [|done|].
      { by rewrite lookup_insert_ne. }
      assert (Hp1 : h1 !! p = Some kp) by (apply Hsub; by rewrite lookup_insert_eq).
      assert (Hnot : ∀ l2, m1 !! l2 ≠ Some p).
      { intros l2 Hl2. destruct (Hmem _ _ Hl2) as (o2 & _ & _ & Hnone & _).
        by rewrite lookup_insert_eq in Hnone. }
      split_and!.
      * done.
      * intros q kq Hq. apply Hsub. rewrite lookup_insert_ne; [done|]. congruence.
      * intros l2 o2 Hin. destruct (decide (l = l2)) as [->|Hne];
          [rewrite lookup_insert_eq; by eexists|].
        rewrite lookup_insert_ne by done.
        apply elem_of_cons in Hin as [[= ? ?]|Hin]; [done|]. by eapply Hdom.
      * intros l2 q Hl2. destruct (decide (l = l2)) as [->|Hne].
        -- rewrite lookup_insert_eq in Hl2. injection Hl2 as <-.
           exists (Some kp). split_and!; [left|done..].
        -- rewrite lookup_insert_ne in Hl2 by done.
           destruct (Hmem _ _ Hl2) as (o2 & Hin & Hq & Hnone & Hnull).
           exists o2. split_and!; [by right|done| |done].
           rewrite lookup_insert_None in Hnone. tauto.
      * intros l1 l2 q Hl1 Hl2 Hq.
        destruct (decide (l = l1)) as [<-|Hne1], (decide (l = l2)) as [<-|Hne2];
          [done| | |].
        -- rewrite lookup_insert_eq in Hl1. injection Hl1 as <-.
           rewrite lookup_insert_ne in Hl2 by done. by destruct (Hnot l2).
        -- rewrite lookup_insert_eq in Hl2. injection Hl2 as <-.
           rewrite lookup_insert_ne in Hl1 by done. by destruct (Hnot l1).
        -- rewrite lookup_insert_ne in Hl1, Hl2 by done. by eapply Hinj.
    + destruct (alloc_members h ms) as [m1 h1] eqn:Hrest.
      injection Halloc as <- <-.
      destruct (IH _ _ _ Hrest Hnil Hnd) as (Hnil1 & Hsub & Hdom & Hmem & Hinj).
      split_and!.
      * done.
      * done.
      * intros l2 o2 Hin. destruct (decide (l = l2)) as [->|Hne];
          [rewrite lookup_insert_eq; by eexists|].
        rewrite lookup_insert_ne by done.
        apply elem_of_cons in Hin as [[= ? ?]|Hin]; [done|]. by eapply Hdom.
      * intros l2 q Hl2. destruct (decide (l = l2)) as [->|Hne].
        -- rewrite lookup_insert_eq in Hl2. injection Hl2 as <-.
           exists None. split_and!; [left|done..].
        -- rewrite lookup_insert_ne in Hl2 by done.
           destruct (Hmem _ _ Hl2) as (o2 & Hin & ?). exists o2.
           split; [by right|done].
      * intros l1 l2 q Hl1 Hl2 Hq.
        destruct (decide (l = l1)) as [<-|Hne1], (decide (l = l2)) as [<-|Hne2];
          [done| | |].
        -- rewrite lookup_insert_eq in Hl1. by injection Hl1 as <-.
        -- rewrite lookup_insert_eq in Hl2. by injection Hl2 as <-.
        -- rewrite lookup_insert_ne in Hl1, Hl2 by done. by eapply Hinj.
Qed.

Section ReadingProperties.
Context `{Imports} `{Decoding}.

(** What a successful [LoadAccountFrom] returns. *)
Lemma LoadAccountFrom_Ret_inv r (fs : files) (h : heap) fileName a h' :
  LoadAccountFrom r fs h fileName = Ret (a, h') →
  h !! nil_ptr = None →
  ∃ data members,
    fs !! fileName = Some data ∧ read_err r fileName = None ∧
    json_Unmarshal data = Ret (Name a, members) ∧
    members_of a h' = members ∧
    h' !! nil_ptr = None ∧
    (∀ p kp, h !! p = Some kp → h' !! p = Some kp) ∧
    (∀ l p, Keypairs a !! l = Some p → h !! p = None) ∧
    (∀ l1 l2 p, Keypairs a !! l1 = Some p → Keypairs a !! l2 = Some p →
       p ≠ nil_ptr → l1 = l2).
Proof.
  unfold LoadAccountFrom, os_ReadFile. intros Hload Hnil.
  destruct (fs !! fileName) as [data|] eqn:Hfs; [|done].
  destruct (read_err r fileName) eqn:Hread; [done|]. rewrite bind_Ret in Hload.
  destruct (json_Unmarshal data) as [[name members]| |] eqn:Hdec; [|done..].
  destruct (alloc_members h (map_to_list members)) as [m h1] eqn:Halloc.
  injection Hload as <- <-.
  destruct (alloc_members_spec _ _ _ _ Halloc Hnil)
    as (Hnil1 & Hsub & Hdom & Hmem & Hinj); [apply NoDup_fst_map_to_list|].
  exists data, members. split_and!; [done..| |done|done| |done].
  - apply map_eq. intros l. unfold members_of. cbn [Keypairs].
    rewrite lookup_fmap. destruct (members !! l) as [o|] eqn:Hl.
    + apply elem_of_map_to_list in Hl as Hin.
      destruct (Hdom _ _ Hin) as [p Hp]. rewrite Hp. cbn.
      destruct (Hmem _ _ Hp) as (o' & Hin' & <- & _).
      apply elem_of_map_to_list in Hin'. congruence.
    + destruct (m !! l) as [p|] eqn:Hp; [|done].
      destruct (Hmem _ _ Hp) as (o' & Hin' & _).
      apply elem_of_map_to_list in Hin'. congruence.
  - intros l p Hp. cbn [Keypairs] in Hp. by destruct (Hmem _ _ Hp) as (_ & _ & _ & ? & _).
Qed.

(** X21. What [LoadAccountFrom] gives when it succeeds, on a heap that
    keeps the nil pointer free: the account has the name and, label by
    label, the records the decoder read from the blob under the file name;
    the records are newly allocated, so every record that was in the heap is
    still there unchanged, no pointer of the account was in use before, and
    two labels share a pointer only if both members are [null]. *)
Theorem LoadAccountFrom_fresh_records r (fs : files) (h : heap) fileName a h' :
  LoadAccountFrom r fs h fileName = Ret (a, h') →
  h !! nil_ptr = None →
  (∃ data, fs !! fileName = Some data ∧
           json_Unmarshal data = Ret (Name a, members_of a h')) ∧
  h' !! nil_ptr = None ∧
  (∀ p kp, h !! p = Some kp → h' !! p = Some kp) ∧
  (∀ l p, Keypairs a !! l = Some p → h !! p = None) ∧
  (∀ l1 l2 p, Keypairs a !! l1 = Some p → Keypairs a !! l2 = Some p →
     p ≠ nil_ptr → l1 = l2).
Proof.
  intros Hload Hnil.
  destruct (LoadAccountFrom_Ret_inv _ _ _ _ _ _ Hload Hnil)
    as (data & members & Hfs & _ & Hdec & <- & Hrest).
  split; [by exists data|done].
Qed.


(** After a save that returned [nil] the file holds the marshalled
    account. *)
Lemma SaveAccount_Nil_live s e (fs : files) a h :
  (FileAccountStore_SaveAccount s e fs a h).1 = Nil →
  ∃ data, json_MarshalIndent a h = Ret data ∧
          (FileAccountStore_SaveAccount s e fs a h).2 !! account_file s (Name a)
          = Some data.
Proof.
  unfold FileAccountStore_SaveAccount, os_MkdirAll.
  destruct (mkdir_err e (AccountDir s)); [done|].
  destruct (negb _).
  - destruct (mkdir_err e (AccountDir s +:+ "/backup")); [done|].
    unfold os_Rename.
    destruct (fs !! account_file s (Name a)) as [blob|]; [|done].
    destruct (rename_err e _ _); [done|].
    intros (data & Hm & ->)%SaveTo_cases. exists data.
    by rewrite lookup_insert_eq.
  - intros (data & Hm & ->)%SaveTo_cases. exists data.
    by rewrite lookup_insert_eq.
Qed.

(** X23. Save then load: after a [SaveAccount] that returned [nil], if the
    decoder maps the blob the encoder produced back to the account's name
    and records, and [os.Stat] and [os.ReadFile] do not fail, [LoadAccount]
    of the account's name returns an account with the same name and, label
    by label, the same records, and leaves the records already in the heap
    unchanged. *)
Theorem Save_Load_round_trip s e e' r (fs : files) a h (h0 : heap) data :
  (FileAccountStore_SaveAccount s e fs a h).1 = Nil →
  json_MarshalIndent a h = Ret data →
  json_Unmarshal data = Ret (Name a, members_of a h) →
  stat_err e' (account_file s (Name a)) = None →
  read_err r (account_file s (Name a)) = None →
  h0 !! nil_ptr = None →
  ∃ a' h',
    FileAccountStore_LoadAccount s e' r
      (FileAccountStore_SaveAccount s e fs a h).2 h0 (Name a) = Ret (a', h') ∧
    Name a' = Name a ∧ members_of a' h' = members_of a h ∧
    ∀ p kp, h0 !! p = Some kp → h' !! p = Some kp.
Proof.
  intros HNil Hm Hdec Hstat Hread Hnil.
  destruct (SaveAccount_Nil_live s e fs a h HNil) as (data' & Hm' & Hlive).
  assert (data' = data) as -> by congruence.
  unfold FileAccountStore_LoadAccount, os_Stat. rewrite Hstat, Hlive.
  destruct (LoadAccountFrom r _ h0 (account_file s (Name a))) as [[a' h']| |] eqn:Hload.
  - destruct (LoadAccountFrom_Ret_inv _ _ _ _ _ _ Hload Hnil)
      as (d & members & Hfs & _ & Hd & Hmem & _ & Hsub & _).
    exists a', h'. split; [done|].
    assert (d = data) as -> by congruence.
    rewrite Hdec in Hd. injection Hd as Hname <-. by split_and!.
  - exfalso. revert Hload. unfold LoadAccountFrom, os_ReadFile.
    rewrite Hlive, Hread, bind_Ret, Hdec. by destruct (alloc_members _ _).
  - exfalso. revert Hload. unfold LoadAccountFrom, os_ReadFile.
    rewrite Hlive, Hread, bind_Ret, Hdec. by destruct (alloc_members _ _).
Qed.

(** X24. [DeleteAccount] removes at most the account's file: every other
    path, the backups included, keeps its blob; on a name without file it
    returns an error and changes nothing; and after it returned [nil],
    [LoadAccount] of that name fails as for an account never imported. *)
Theorem DeleteAccount_only_the_file s r (fs : files) name :
  (∀ path, path ≠ account_file s name →
     (FileAccountStore_DeleteAccount s r fs name).2 !! path = fs !! path) ∧
  (fs !! account_file s name = None →
     (FileAccountStore_DeleteAccount s r fs name).1 ≠ Nil ∧
     (FileAccountStore_DeleteAccount s r fs name).2 = fs) ∧
  ((FileAccountStore_DeleteAccount s r fs name).1 = Nil →
     (FileAccountStore_DeleteAccount s r fs name).2 !! account_file s name = None ∧
     ∀ e h, ∃ err,
       FileAccountStore_LoadAccount s e r
         (FileAccountStore_DeleteAccount s r fs name).2 h name
       = Err ("account is not imported at " +:+ account_file s name +:+ ": " +:+ err
              +:+ ". use 'iwallet account import " +:+ name
              +:+ " <private-key>' to import it")).
Proof.
  unfold FileAccountStore_DeleteAccount, os_Remove.
  destruct (fs !! account_file s name) as [blob|] eqn:Hfs.
  - destruct (remove_err r (account_file s name)) as [msg|]; cbn [fst snd].
    + split_and!; [done..|]. done.
    + split_and!; [|done|].
      * intros path Hne. by rewrite lookup_delete_ne.
      * intros _. split; [by rewrite lookup_delete_eq|]. intros e h.
        unfold FileAccountStore_LoadAccount, os_Stat.
        rewrite lookup_delete_eq. destruct (stat_err e _); by eexists.
  - cbn [fst snd]. split_and!; [done..|]. done.
Qed.

Lemma unloadable_Err r fs h path :
  unloadable r fs path → ∃ msg, LoadAccountFrom r fs h path = Err msg.
Proof.
  unfold LoadAccountFrom.
  intros [[msg ->]|(data & msg & -> & Hdec)]; [by eexists|].
  rewrite bind_Ret, Hdec. by eexists.
Qed.

Lemma ListAccounts_loop_skips s r (fs : files) (h : heap) before bad after :
  unloadable r fs (AccountDir s +:+ "/" +:+ bad) →
  ListAccounts_loop s r fs h (before ++ bad :: after)
  = ListAccounts_loop s r fs h (before ++ after).
Proof.
  intros Hbad. revert h. induction before as [|n before IH]; intros h.
  - cbn [app ListAccounts_loop].
    by destruct (unloadable_Err r fs h _ Hbad) as [msg ->].
  - cbn [app ListAccounts_loop].
    destruct (LoadAccountFrom r fs h (AccountDir s +:+ "/" +:+ n)) as [[acc h']| |];
      [|done..].
    + by rewrite IH.
Qed.

(** X25. One unreadable or undecodable entry does not block the listing:
    when the directory listing contains such an entry (a corrupt file, or
    the [backup] subdirectory, under whose name the store holds no blob),
    [ListAccounts] returns what loading the other entries, in their order,
    returns. *)
Theorem ListAccounts_skips s r (fs : files) (h : heap) before bad after :
  readdir r (AccountDir s) = Ret (before ++ bad :: after) →
  unloadable r fs (AccountDir s +:+ "/" +:+ bad) →
  FileAccountStore_ListAccounts s r fs h
  = ListAccounts_loop s r fs h (before ++ after).
Proof.
  intros Hdir Hbad. unfold FileAccountStore_ListAccounts.
  rewrite Hdir, bind_Ret. by apply ListAccounts_loop_skips.
Qed.

(** X26. Errors of single entries never become an error of [ListAccounts]:
    once [os.ReadDir] has succeeded (and the decoder does not panic), the
    call returns a list of at most as many accounts as there are entries,
    and every record that was in the heap is still there unchanged. *)
Theorem ListAccounts_returns s r (fs : files) (h : heap) names :
  (∀ data, json_Unmarshal data ≠ Crash) →
  readdir r (AccountDir s) = Ret names →
  h !! nil_ptr = None →
  ∃ accs h',
    FileAccountStore_ListAccounts s r fs h = Ret (accs, h') ∧
    length accs ≤ length names ∧
    ∀ p kp, h !! p = Some kp → h' !! p = Some kp.
Proof.
  intros Hdec Hdir. unfold FileAccountStore_ListAccounts.
  rewrite Hdir, bind_Ret. clear Hdir.
  revert h. induction names as [|n names IH]; intros h Hnil.
  - exists [], h. by split_and!.
  - cbn [ListAccounts_loop].
    destruct (LoadAccountFrom r fs h (AccountDir s +:+ "/" +:+ n))
      as [[acc h1]| |] eqn:Hload.
    + destruct (LoadAccountFrom_Ret_inv _ _ _ _ _ _ Hload Hnil)
        as (_ & _ & _ & _ & _ & _ & Hnil1 & Hsub & _).
      destruct (IH h1 Hnil1) as (accs & h' & -> & Hlen & Hsub').
      rewrite bind_Ret. exists (acc :: accs), h'. split_and!; [done|cbn; lia|].
      intros p kp Hp. by apply Hsub', Hsub.
    + destruct (IH h Hnil) as (accs & h' & -> & Hlen & Hsub').
      exists accs, h'. split_and!; [done|cbn; lia|done].
    + exfalso. revert Hload. unfold LoadAccountFrom, os_ReadFile.
      destruct (fs !! _) as [data|]; [|done].
      destruct (read_err r _); [done|]. rewrite bind_Ret.
      destruct (json_Unmarshal data) as [[name members]| |] eqn:Hd; [|done|].
      * by destruct (alloc_members _ _).
      * by destruct (Hdec data).
Qed.

End ReadingProperties.

(** * The further properties on the sample instance *)

Lemma Sample_base58_round_trip : @base58_round_trip Sample.imports.
Proof. intros b. cbn. apply String.list_byte_of_string_of_list_byte. Qed.

Lemma Sample_lxor_byte (a b : byte) :
  ∃ c, Byte.of_N (N.lxor (Byte.to_N a) (Byte.to_N b)) = Some c.
Proof.
  destruct (Byte.of_N _) as [c|] eqn:Hc; [by exists c|].
  apply Byte.of_N_None_iff in Hc. exfalso.
  pose proof (Byte.to_N_bounded a) as Ha. pose proof (Byte.to_N_bounded b) as Hb.
  set (x := Byte.to_N a) in *. set (y := Byte.to_N b) in *.
  assert (Hx : (N.log2 x ≤ 7)%N) by (change 7%N with (N.log2 255); by apply N.log2_le_mono).
  assert (Hy : (N.log2 y ≤ 7)%N) by (change 7%N with (N.log2 255); by apply N.log2_le_mono).
  pose proof (N.log2_lxor x y) as Hl.
  assert (Hlog : (N.log2 (N.lxor x y) < 8)%N) by lia.
  apply N.log2_lt_pow2 in Hlog; [|lia]. change (2 ^ 8)%N with 256%N in Hlog. lia.
Qed.

Lemma Sample_byte_xor_invol (a b : byte) :
  Sample.byte_xor a (Sample.byte_xor a b) = b.
Proof.
  unfold Sample.byte_xor.
  destruct (Sample_lxor_byte a b) as [c Hc]. rewrite Hc.
  change (default x00 (Some c)) with c.
  apply Byte.to_of_N in Hc. rewrite Hc.
  rewrite <- N.lxor_assoc, N.lxor_nilpotent, N.lxor_0_l, Byte.of_to_N. done.
Qed.

Lemma Sample_stream_involutive : @stream_involutive Sample.imports.
Proof.
  intros blk iv src. cbn. induction src as [|x src IH]; [done|].
  cbn. by rewrite Sample_byte_xor_invol, IH.
Qed.

Lemma Sample_scrypt_key_length : @scrypt_key_length Sample.imports.
Proof.
  intros password salt key [= <-]. cbn [elems].
  rewrite length_take, !length_app. cbn. lia.
Qed.

Lemma Sample_members_allocated l p :
  Keypairs Sample.account !! l = Some p → is_Some (Sample.records !! p).
Proof.
  intros Hl. unfold Sample.account in Hl. cbn [Keypairs] in Hl.
  apply lookup_insert_Some in Hl as [[<- <-]|[_ Hl]]; [by eexists|].
  apply lookup_singleton_Some in Hl as [<- <-]. by eexists.
Qed.

Lemma More_plain_members l p :
  Keypairs More.plain_account !! l = Some p →
  ∃ kp, More.plain_records !! p = Some kp ∧ KeyPairInfo_IsEncrypted kp = false.
Proof.
  intros Hl. unfold More.plain_account in Hl. cbn [Keypairs] in Hl.
  apply lookup_insert_Some in Hl as [[<- <-]|[_ Hl]]; [by eexists|].
  apply lookup_singleton_Some in Hl as [<- <-]. by eexists.
Qed.

Lemma More_shared_members l p :
  Keypairs More.shared_account !! l = Some p →
  ∃ kp, More.plain_records !! p = Some kp ∧ KeyPairInfo_IsEncrypted kp = false.
Proof.
  intros Hl. unfold More.shared_account in Hl. cbn [Keypairs] in Hl.
  apply lookup_insert_Some in Hl as [[<- <-]|[_ Hl]]; [by eexists|].
  apply lookup_singleton_Some in Hl as [<- <-]. by eexists.
Qed.

Lemma More_plain_injective l1 l2 p :
  Keypairs More.plain_account !! l1 = Some p →
  Keypairs More.plain_account !! l2 = Some p → l1 = l2.
Proof.
  unfold More.plain_account. cbn [Keypairs].
  rewrite !lookup_insert_Some, !lookup_singleton_Some.
  intros [[? ?]|[? [? ?]]] [[? ?]|[? [? ?]]]; congruence.
Qed.

Lemma Decrypt_decided_by_mac_sample :
  KeyPairInfo_Decrypt Sample.loaded Sample.pass = (Nil, Sample.decrypted).
Proof.
  rewrite (Decrypt_decided_by_mac (H:=Sample.imports) Sample.loaded Sample.pass
             (Slice (String.list_byte_of_string "correct horse0123456789abcdefghi") [])
             (String.list_byte_of_string "correct horse012"));
    [vm_compute; reflexivity | reflexivity | vm_compute; lia
    | vm_compute; reflexivity | reflexivity | vm_compute; reflexivity].
Defined.

Lemma Decrypt_Nil_mac_verified_sample :
  48 ≤ cap (DecodeBase58 (Salt Sample.loaded)).
Proof.
  apply (Decrypt_Nil_mac_verified (H:=Sample.imports)
           Sample.loaded Sample.pass Sample.decrypted).
  vm_compute. reflexivity.
Defined.

Lemma Decrypt_repeatable_sample :
  KeyPairInfo_Decrypt Sample.decrypted Sample.pass
  = KeyPairInfo_Decrypt Sample.loaded Sample.pass.
Proof. apply (Decrypt_repeatable (H:=Sample.imports) Sample.loaded Sample.pass). done. Defined.

Lemma encrypted_key_stays_sample :
  KeyPairInfo_IsEncrypted
    (after_calls Sample.loaded
       [Call_Decrypt Sample.pass; Call_Encrypt Sample.pass Sample.tape;
        Call_Decrypt (String.list_byte_of_string "other")]) = true.
Proof. apply (encrypted_key_stays (H:=Sample.imports) Sample.loaded). done. Defined.

Lemma Encrypt_salt_shape_sample :
  ∃ salt, Salt Sample.encrypted = EncodeBase58 salt ∧ length salt = 48 ∧
          drop 32 salt = replicate 16 x00 ∧
          (length (frand_Read Sample.tape 32).1 = 32 →
           take 32 salt = (frand_Read Sample.tape 32).1).
Proof.
  apply (Encrypt_salt_shape (H:=Sample.imports) Sample.fresh Sample.pass Sample.tape
           Sample.encrypted (drop 32 Sample.tape)).
  vm_compute. reflexivity.
Defined.

Lemma NewKeyPairInfo_ToKeyPair_sample :
  KeyPairInfo_ToKeyPair Sample.fresh = Ret (NewKeyPair "id-1").
Proof.
  apply (NewKeyPairInfo_ToKeyPair (H:=Sample.imports) "id-1" "k3y" "ed25519" Sample.fresh).
  reflexivity.
Defined.

Lemma ToKeyPair_after_Encrypt_sample :
  KeyPairInfo_ToKeyPair Sample.encrypted = Err "empty keypair".
Proof.
  apply (ToKeyPair_after_Encrypt (H:=Sample.imports) Sample.fresh Sample.pass Sample.tape
           Sample.encrypted (drop 32 Sample.tape)).
  vm_compute. reflexivity.
Defined.

Lemma Encrypt_salt_and_mac_fit_sample :
  ∃ ct,
    KeyPairInfo_Decrypt
      {| ID := ID Sample.encrypted; RawKey := RawKey Sample.encrypted;
         KeyType := KeyType Sample.encrypted; PubKey := PubKey Sample.encrypted;
         Salt := Salt Sample.encrypted; EncryptedKey := EncodeBase58 ct;
         Mac := Mac Sample.encrypted |} Sample.pass
    = (Nil,
       {| ID := ID Sample.fresh;
          RawKey := EncodeBase58 (elems (DecodeBase58 (RawKey Sample.fresh)));
          KeyType := KeyType Sample.fresh; PubKey := PubKey Sample.fresh;
          Salt := Salt Sample.encrypted; EncryptedKey := EncodeBase58 ct;
          Mac := Mac Sample.encrypted |}).
Proof.
  apply (Encrypt_salt_and_mac_fit (H:=Sample.imports) Sample.fresh Sample.pass Sample.tape
           Sample.encrypted (drop 32 Sample.tape)
           Sample_base58_round_trip Sample_stream_involutive Sample_scrypt_key_length).
  vm_compute. reflexivity.
Defined.

Lemma errors_from_guards_or_imports_sample :
  "wrong password" = "not encrypted" ∨ "wrong password" = "wrong password" ∨
  (∃ salt, scrypt_Key Sample.pass salt 32768 8 1 32%Z = Err "wrong password") ∨
  (∃ key, aes_NewCipher key = Err "wrong password").
Proof.
  apply (proj2 (errors_from_guards_or_imports (H:=Sample.imports) Sample.encrypted
                  Sample.pass Sample.tape "wrong password")).
  vm_compute. reflexivity.
Defined.

Lemma AccountInfo_IsEncrypted_any_order_sample :
  ∃ b, AccountInfo_IsEncrypted Sample.records
         (map_to_list (Keypairs Sample.account)) = Ret b.
Proof.
  destruct (AccountInfo_IsEncrypted_any_order Sample.account
              Sample.records (map_to_list (Keypairs Sample.account)))
    as (b & Hb & _); [by unfold visits|apply Sample_members_allocated|].
  by exists b.
Defined.

Lemma AccountInfo_Encrypt_Nil_sample :
  ∃ kp kp', More.plain_records !! 2%positive = Some kp ∧
            KeyPairInfo_IsEncrypted kp = false ∧
            More.encrypted_records !! 2%positive = Some kp' ∧
            RawKey kp' = EmptyString ∧ ID kp' = ID kp.
Proof.
  refine (proj1 (AccountInfo_Encrypt_Nil (H:=Sample.imports) More.plain_account
                   More.plain_records More.plain_vis More.plain_vis Sample.pass
                   Sample.tape More.encrypted_records
                   (AccountInfo_Encrypt (H:=Sample.imports) More.plain_records
                      More.plain_vis More.plain_vis Sample.pass Sample.tape).2 _ _)
                "owner" 2%positive _);
    [by unfold visits|vm_compute; reflexivity|reflexivity].
Defined.

Lemma AccountInfo_Encrypt_succeeds_sample :
  ∃ h' g', AccountInfo_Encrypt More.plain_records More.plain_vis More.plain_vis
             Sample.pass Sample.tape = (Nil, h', g').
Proof.
  apply (AccountInfo_Encrypt_succeeds (H:=Sample.imports) More.plain_account);
    [apply Sample_scrypt_returns_key | apply Sample_aes_accepts_16
    | by unfold visits | by unfold visits
    | apply More_plain_members | apply More_plain_injective].
Defined.

Lemma AccountInfo_Encrypt_shared_record_sample :
  (AccountInfo_Encrypt More.plain_records More.shared_vis More.shared_vis
     Sample.pass Sample.tape).1.1 = Error "already encrypted".
Proof.
  apply (AccountInfo_Encrypt_shared_record (H:=Sample.imports) More.shared_account
           More.plain_records More.shared_vis More.shared_vis Sample.pass Sample.tape
           "owner" "active" 2%positive);
    [apply Sample_scrypt_returns_key | apply Sample_aes_accepts_16
    | by unfold visits | by unfold visits
    | apply More_shared_members | done | reflexivity | reflexivity].
Defined.

Lemma AccountInfo_Decrypt_plaintext_member_sample :
  KeyPairInfo_IsEncrypted Sample.fresh = false ∧
  (AccountInfo_Decrypt Sample.records (map_to_list (Keypairs Sample.account))
     (map_to_list (Keypairs Sample.account)) Sample.pass).1 ≠ Nil.
Proof.
  split; [reflexivity|].
  apply (AccountInfo_Decrypt_plaintext_member (H:=Sample.imports) Sample.account
           Sample.records _ _ Sample.pass "active" 2%positive Sample.fresh);
    [by unfold visits|reflexivity..].
Defined.

Lemma AccountInfo_Decrypt_all_plaintext_sample :
  AccountInfo_Decrypt More.plain_records More.plain_vis More.plain_vis Sample.pass
  = (Error "not encrypted", More.plain_records).
Proof.
  apply (AccountInfo_Decrypt_all_plaintext (H:=Sample.imports) More.plain_account);
    [by unfold visits|apply More_plain_members].
Defined.

Lemma AccountInfo_records_frame_sample :
  ∃ kp', (AccountInfo_Decrypt Sample.records (map_to_list (Keypairs Sample.account))
            (map_to_list (Keypairs Sample.account)) Sample.pass).2 !! 1%positive
         = Some kp' ∧
         ID kp' = ID Sample.loaded ∧ KeyType kp' = KeyType Sample.loaded ∧
         PubKey kp' = PubKey Sample.loaded ∧
         EncryptedKey kp' = EncryptedKey Sample.loaded ∧
         Salt kp' = Salt Sample.loaded ∧ Mac kp' = Mac Sample.loaded.
Proof.
  apply (AccountInfo_records_frame (H:=Sample.imports) Sample.records
           (map_to_list (Keypairs Sample.account))
           (map_to_list (Keypairs Sample.account)) Sample.pass Sample.tape 1%positive).
  reflexivity.
Defined.

Lemma GetKeyPair_after_Encrypt_sample :
  AccountInfo_GetKeyPair More.plain_account More.encrypted_records "owner"
  = Err "empty keypair".
Proof.
  apply (GetKeyPair_after_Encrypt (H:=Sample.imports) More.plain_account
           More.plain_records More.plain_vis More.plain_vis Sample.pass Sample.tape
           More.encrypted_records
           (AccountInfo_Encrypt (H:=Sample.imports) More.plain_records More.plain_vis
              More.plain_vis Sample.pass Sample.tape).2 "owner");
    [by unfold visits|vm_compute; reflexivity].
Defined.

Lemma SaveAccount_frame_sample :
  Sample.saved.2 !! "/keys/bob.json" = Sample.disk !! "/keys/bob.json".
Proof.
  apply (SaveAccount_frame (H:=Sample.imports) Sample.store Sample.calm Sample.disk
           Sample.account Sample.records "/keys/bob.json"); by vm_compute.
Defined.

Lemma SaveAccount_first_time_sample :
  (FileAccountStore_SaveAccount Sample.store Sample.calm ∅
     Sample.account Sample.records).2
    !! backup_file Sample.store "alice" "2022-03-01T10:00:00Z" = None.
Proof.
  rewrite <- (lookup_empty (M:=gmap string) (A:=bytes)
                (backup_file Sample.store "alice" "2022-03-01T10:00:00Z")).
  refine (proj1 (SaveAccount_first_time (H:=Sample.imports) Sample.store Sample.calm ∅
                   Sample.account Sample.records _ _)); [apply lookup_empty|reflexivity].
Defined.

Lemma SaveAccount_stat_error_sample :
  (FileAccountStore_SaveAccount Sample.store
     {| mkdir_err := λ _, None; stat_err := λ _, Some "permission denied";
        rename_err := λ _ _, None; write_err := λ _, None;
        now_RFC3339 := "2022-03-01T10:00:00Z" |}
     ∅ Sample.account Sample.records).2 = ∅.
Proof.
  refine (proj2 (SaveAccount_stat_error (H:=Sample.imports) Sample.store _ ∅
                   Sample.account Sample.records "permission denied" _ _));
    [apply lookup_empty|reflexivity].
Defined.

Lemma SaveAccount_twice_sample :
  ∃ data1 data2,
    json_MarshalIndent Sample.account Sample.records = Ret data1 ∧
    json_MarshalIndent Sample.account Sample.records = Ret data2 ∧
    More.saved_twice.2 !! account_file Sample.store "alice" = Some data2 ∧
    More.saved_twice.2 !! backup_file Sample.store "alice" "2022-03-01T10:00:00Z"
      = Some data1 ∧
    More.saved_twice.2 !! backup_file Sample.store "alice" "2022-03-01T10:00:00Z"
      = Some (if decide ("2022-03-01T10:00:00Z" = "2022-03-01T10:00:00Z")
              then data1 else Sample.previous).
Proof.
  apply (SaveAccount_twice (H:=Sample.imports) Sample.store Sample.calm Sample.calm
           Sample.disk Sample.account Sample.account Sample.records Sample.records
           Sample.previous); vm_compute; reflexivity.
Defined.

Lemma LoadAccountFrom_fresh_records_sample :
  ∃ a h', LoadAccountFrom More.reads Sample.saved.2 ∅ "/keys/alice.json" = Ret (a, h') ∧
          h' !! nil_ptr = None ∧
          ∀ l p, Keypairs a !! l = Some p → (∅ : heap) !! p = None.
Proof.
  destruct (LoadAccountFrom More.reads Sample.saved.2 ∅ "/keys/alice.json")
    as [[a h']| |] eqn:Hload; [|by vm_compute in Hload..].
  exists a, h'. split; [done|].
  destruct (LoadAccountFrom_fresh_records More.reads Sample.saved.2 ∅
              "/keys/alice.json" a h' Hload eq_refl) as (_ & Hnil & _ & Hfresh & _).
  by split.
Defined.


Lemma Save_Load_round_trip_sample :
  ∃ a' h',
    FileAccountStore_LoadAccount Sample.store Sample.calm More.reads
      Sample.saved.2 ∅ "alice" = Ret (a', h') ∧
    Name a' = "alice" ∧
    members_of a' h' = members_of Sample.account Sample.records ∧
    ∀ p kp, (∅ : heap) !! p = Some kp → h' !! p = Some kp.
Proof.
  apply (Save_Load_round_trip (H:=Sample.imports) Sample.store Sample.calm Sample.calm
           More.reads Sample.disk Sample.account Sample.records ∅ More.blob);
    [vm_compute; reflexivity..].
Defined.

Lemma DeleteAccount_only_the_file_sample :
  (FileAccountStore_DeleteAccount Sample.store More.reads More.saved_twice.2 "alice").2
    !! backup_file Sample.store "alice" "2022-03-01T10:00:00Z"
  = More.saved_twice.2 !! backup_file Sample.store "alice" "2022-03-01T10:00:00Z".
Proof.
  apply (proj1 (DeleteAccount_only_the_file Sample.store More.reads
                  More.saved_twice.2 "alice")).
  by vm_compute.
Defined.

Lemma ListAccounts_skips_sample :
  FileAccountStore_ListAccounts Sample.store More.reads Sample.saved.2 ∅
  = ListAccounts_loop Sample.store More.reads Sample.saved.2 ∅ ["alice.json"].
Proof.
  apply (ListAccounts_skips Sample.store More.reads Sample.saved.2 ∅
           ["alice.json"] "backup" []); [reflexivity|].
  left. eexists. vm_compute. reflexivity.
Defined.

Lemma ListAccounts_returns_sample :
  ∃ accs h',
    FileAccountStore_ListAccounts Sample.store More.reads Sample.saved.2 ∅
      = Ret (accs, h') ∧
    length accs ≤ 2 ∧
    ∀ p kp, (∅ : heap) !! p = Some kp → h' !! p = Some kp.
Proof.
  apply (ListAccounts_returns Sample.store More.reads Sample.saved.2 ∅
           ["alice.json"; "backup"]); [|reflexivity..].
  intros data. cbn. by case_decide.
Defined.

(** The listing of the sample store: the account file loads, the [backup]
    entry is skipped. *)
Example sample_ListAccounts :
  match FileAccountStore_ListAccounts Sample.store More.reads Sample.saved.2 ∅ with
  | Ret (accs, h') => Name <$> accs = ["alice"] ∧ size h' = 2
  | _ => False
  end.
Proof. vm_compute. done. Qed.

(** Two labels sharing one record: the account call fails after it has
    encrypted the shared record. *)
Example sample_shared_record :
  (AccountInfo_Encrypt More.plain_records More.shared_vis More.shared_vis
     Sample.pass Sample.tape).1.1 = Error "already encrypted" ∧
  RawKey <$> (AccountInfo_Encrypt More.plain_records More.shared_vis More.shared_vis
                Sample.pass Sample.tape).1.2 !! 2%positive = Some EmptyString.
Proof. vm_compute. done. Qed.
